(** * A shallow embedding of the [Emitter] class of [src/index.ts]

    The emitter owns two associative structures: [eventsMap], a [Map] from
    event names to [Set] objects of wrapped listeners, and [listenersMap], a
    [WeakMap] from the caller's listener to the wrapper made for it.  Both the
    [Set] objects and the wrappers are JavaScript objects with an identity:
    the token returned by [on] keeps a reference to the [Set] it registered
    into, so the sets live in a store indexed by allocation number, and a
    wrapper carries the number under which it was allocated.

    Listeners are the environment of the emitter.  A listener is a function
    object [VFun f]; what it does when called is given by a table [code],
    whose entries are resumptions: a listener may call back into the emitter
    (subscribe, unsubscribe, publish, ...), look at what the call returned or
    threw, and finally return a value or throw. *)

From stdpp Require Import gmap strings list fin_maps countable sorting.

Open Scope Z_scope.
Open Scope nat_scope.

(** ** JavaScript values

    Only [typeof] and the key equality of [Map] (SameValueZero) are ever
    observed on a value, so a number is represented by an integer standing
    for its SameValueZero class, and symbols, objects and functions by the
    number of their allocation. *)

Inductive value :=
| VUndefined
| VNull
| VBool (b : bool)
| VNum (n : Z)
| VStr (s : string)
| VSym (id : nat)
| VObj (id : nat)
| VFun (f : nat).

#[global] Instance value_eq_dec : EqDecision value.
Proof. solve_decision. Defined.

Definition value_to_sum (v : value) : unit + unit + bool + Z + string + nat + nat + nat :=
  match v with
  | VUndefined => inl (inl (inl (inl (inl (inl (inl tt))))))
  | VNull => inl (inl (inl (inl (inl (inl (inr tt))))))
  | VBool b => inl (inl (inl (inl (inl (inr b)))))
  | VNum n => inl (inl (inl (inl (inr n))))
  | VStr s => inl (inl (inl (inr s)))
  | VSym i => inl (inl (inr i))
  | VObj i => inl (inr i)
  | VFun f => inr f
  end.

Definition value_of_sum (x : unit + unit + bool + Z + string + nat + nat + nat) : value :=
  match x with
  | inl (inl (inl (inl (inl (inl (inl _)))))) => VUndefined
  | inl (inl (inl (inl (inl (inl (inr _)))))) => VNull
  | inl (inl (inl (inl (inl (inr b))))) => VBool b
  | inl (inl (inl (inl (inr n)))) => VNum n
  | inl (inl (inl (inr s))) => VStr s
  | inl (inl (inr i)) => VSym i
  | inl (inr i) => VObj i
  | inr f => VFun f
  end.

#[global] Instance value_countable : Countable value.
Proof.
  refine (inj_countable' value_to_sum value_of_sum _).
  intros []; reflexivity.
Defined.

(** The result of [typeof], restricted to what the assertions test. *)
Inductive jstype := TString | TSymbol | TNumber | TFunction | TOther.

#[global] Instance jstype_eq_dec : EqDecision jstype.
Proof. solve_decision. Defined.

Definition typeof (v : value) : jstype :=
  match v with
  | VStr _ => TString
  | VSym _ => TSymbol
  | VNum _ => TNumber
  | VFun _ => TFunction
  | _ => TOther
  end.

(** ** Errors and outcomes

    The two assertions throw a [TypeError], [off] throws an [Error]; they are
    told apart by their message.  [UserError] is whatever a listener throws. *)

Inductive error :=
| InvalidKeyType       (* TypeError: `eventName` must be a string, symbol, or number *)
| InvalidListenerType  (* TypeError: listener must be a function *)
| UnknownKey           (* Error: this event has not been subscribed *)
| UnknownListener      (* Error: this listener has not been listened *)
| UserError (v : value).

#[global] Instance error_eq_dec : EqDecision error.
Proof. solve_decision. Defined.

Inductive outcome (A : Type) :=
| Normal (a : A)
| Throw (e : error).
Arguments Normal {A} a.
Arguments Throw {A} e.

Definition is_normal {A} (o : outcome A) : bool :=
  match o with Normal _ => true | Throw _ => false end.

(** ** The objects of the emitter *)

(** The closure returned by [listenerWithLog eventName listener]; [w_id] is
    its identity, the number of wrappers allocated before it. *)
Record wrapped := Wrapped {
  w_id : nat;
  w_event : value;
  w_listener : nat;
}.

#[global] Instance wrapped_eq_dec : EqDecision wrapped.
Proof. solve_decision. Defined.

(** One group written to the console by [log]: the event type and name of
    the header, and the data handed to [console.dir].  The clock of the
    header and the rendering of the data ([JSON.parse] with a fallback, the
    empty string for a missing payload) are left to the console. *)
Record log_entry := LogEntry {
  le_type : string;
  le_name : value;
  le_data : value;
}.

#[global] Instance log_entry_eq_dec : EqDecision log_entry.
Proof. solve_decision. Defined.

(** One call of a wrapped listener, as a mock would record it: the depth of
    listener calls it happened at, the wrapper and the payload. *)
Record call_record := CallRecord {
  c_depth : nat;
  c_wrapper : wrapped;
  c_payload : value;
}.

#[global] Instance call_record_eq_dec : EqDecision call_record.
Proof. solve_decision. Defined.

Record emitter := Emitter {
  eventsMap : gmap value nat;          (* Map<EventName, Set<...>>, by reference *)
  listenersMap : gmap nat wrapped;     (* WeakMap<Listener, wrapper> *)
  debug : bool;
  sets : gmap nat (list wrapped);      (* the Set objects, in insertion order *)
  next_set : nat;
  next_wrapper : nat;
  console : list log_entry;
  calls : list call_record;            (* ghost: listener calls so far *)
  depth : nat;                         (* ghost: listener calls in progress *)
}.

(** The object literal returned by [on]: what its closure [off] has
    captured.  The other closure, [onReady], returns a promise that is
    already resolved and touches nothing of the emitter. *)
Record token := Token {
  t_eventName : value;
  t_listener : nat;
  t_subscribers : nat;
  t_newListener : wrapped;
}.

Record Options := { opt_debug : option bool }.

(** [constructor(options?)]: [this.debug = options?.debug ?? true]. *)
Definition new_emitter (options : option Options) : emitter :=
  {| eventsMap := ∅;
     listenersMap := ∅;
     debug := default true (options ≫= opt_debug);
     sets := ∅;
     next_set := 0;
     next_wrapper := 0;
     console := [];
     calls := [];
     depth := 0 |}.

(** Field updates. *)
Definition with_eventsMap (f : gmap value nat → gmap value nat) (s : emitter) : emitter :=
  {| eventsMap := f (eventsMap s); listenersMap := listenersMap s; debug := debug s;
     sets := sets s; next_set := next_set s; next_wrapper := next_wrapper s;
     console := console s; calls := calls s; depth := depth s |}.

Definition with_listenersMap (f : gmap nat wrapped → gmap nat wrapped) (s : emitter) : emitter :=
  {| eventsMap := eventsMap s; listenersMap := f (listenersMap s); debug := debug s;
     sets := sets s; next_set := next_set s; next_wrapper := next_wrapper s;
     console := console s; calls := calls s; depth := depth s |}.

Definition with_sets (f : gmap nat (list wrapped) → gmap nat (list wrapped)) (s : emitter) : emitter :=
  {| eventsMap := eventsMap s; listenersMap := listenersMap s; debug := debug s;
     sets := f (sets s); next_set := next_set s; next_wrapper := next_wrapper s;
     console := console s; calls := calls s; depth := depth s |}.

Definition with_next_set (n : nat) (s : emitter) : emitter :=
  {| eventsMap := eventsMap s; listenersMap := listenersMap s; debug := debug s;
     sets := sets s; next_set := n; next_wrapper := next_wrapper s;
     console := console s; calls := calls s; depth := depth s |}.

Definition with_next_wrapper (n : nat) (s : emitter) : emitter :=
  {| eventsMap := eventsMap s; listenersMap := listenersMap s; debug := debug s;
     sets := sets s; next_set := next_set s; next_wrapper := n;
     console := console s; calls := calls s; depth := depth s |}.

Definition with_console (f : list log_entry → list log_entry) (s : emitter) : emitter :=
  {| eventsMap := eventsMap s; listenersMap := listenersMap s; debug := debug s;
     sets := sets s; next_set := next_set s; next_wrapper := next_wrapper s;
     console := f (console s); calls := calls s; depth := depth s |}.

Definition with_calls (f : list call_record → list call_record) (s : emitter) : emitter :=
  {| eventsMap := eventsMap s; listenersMap := listenersMap s; debug := debug s;
     sets := sets s; next_set := next_set s; next_wrapper := next_wrapper s;
     console := console s; calls := f (calls s); depth := depth s |}.

Definition with_depth (d : nat) (s : emitter) : emitter :=
  {| eventsMap := eventsMap s; listenersMap := listenersMap s; debug := debug s;
     sets := sets s; next_set := next_set s; next_wrapper := next_wrapper s;
     console := console s; calls := calls s; depth := d |}.

(** ** [Set] objects

    A [Set] keeps its elements in insertion order and compares them by
    identity, here the allocation number of the wrapper. *)

Definition Set_has (w : wrapped) (l : list wrapped) : bool :=
  bool_decide (w_id w ∈ w_id <$> l).

Definition Set_add (w : wrapped) (l : list wrapped) : list wrapped :=
  if Set_has w l then l else l ++ [w].

Definition Set_delete (w : wrapped) (l : list wrapped) : list wrapped :=
  filter (λ x, w_id x ≠ w_id w) l.

(** The elements of the [Set] object number [i]. *)
Definition set_contents (s : emitter) (i : nat) : list wrapped :=
  default [] (sets s !! i).

Definition has_key `{Countable K} {V} (m : gmap K V) (k : K) : bool :=
  match m !! k with Some _ => true | None => false end.

(** ** The monad of the methods: state and exceptions *)

Definition M (A : Type) : Type := emitter → outcome A * emitter.

Definition ret {A} (a : A) : M A := λ s, (Normal a, s).
Definition throw {A} (e : error) : M A := λ s, (Throw e, s).
Definition bind {A B} (m : M A) (k : A → M B) : M B :=
  λ s, match m s with
       | (Normal a, s') => k a s'
       | (Throw e, s') => (Throw e, s')
       end.
Definition get : M emitter := λ s, (Normal s, s).
Definition modify (f : emitter → emitter) : M unit := λ s, (Normal tt, f s).

Notation "'let*' x ':=' m 'in' k" := (bind m (λ x, k))
  (at level 10, x pattern, m at level 100, k at level 200).
Notation "m1 '>>' m2" := (bind m1 (λ _, m2))
  (at level 100, m2 at level 200, right associativity).

(** ** The helpers of [index.ts] *)

Definition assertEventName (eventName : value) : M unit :=
  match typeof eventName with
  | TString | TSymbol | TNumber => ret tt
  | _ => throw InvalidKeyType
  end.

(** On success the listener is known to be a function; its number is
    returned, as the narrowed type of the TypeScript assertion. *)
Definition assertListener (listener : value) : M nat :=
  match listener with
  | VFun f => ret f
  | _ => throw InvalidListenerType
  end.

Definition getSubscribers (eventName : value) : M (option nat) :=
  let* s := get in ret (eventsMap s !! eventName).

(** [log] writes one group, whatever [this.debug] holds: the method never
    reads the field.  The header is built with a template literal, after a
    [toString()] for symbols and numbers; the other values an unchecked key
    can be ([null], [undefined], booleans, plain objects) are converted by
    the literal itself, so that [log] does not throw. *)
Definition log (eventType : string) (eventName : value) (eventData : value) : M unit :=
  modify (with_console (λ c, c ++ [LogEntry eventType eventName eventData])).

Definition listenerWithLog (eventName : value) (listener : nat) : M wrapped :=
  let* s := get in
  modify (with_next_wrapper (S (next_wrapper s))) >>
  ret (Wrapped (next_wrapper s) eventName listener).

Definition new_Set : M nat :=
  let* s := get in
  modify (λ s, with_next_set (S (next_set s)) (with_sets (insert (next_set s) []) s)) >>
  ret (next_set s).

(** The methods of a [Set] change the object number [i] in place. *)
Definition Set_prototype_add (i : nat) (w : wrapped) : M unit :=
  modify (with_sets (alter (Set_add w) i)).

Definition Set_prototype_delete (i : nat) (w : wrapped) : M unit :=
  modify (with_sets (alter (Set_delete w) i)).

Definition Set_prototype_size (i : nat) : M nat :=
  let* s := get in ret (length (set_contents s i)).

(** ** The methods *)

Definition hasListener (eventName listener : value) : M bool :=
  let* f := assertListener listener in
  assertEventName eventName >>
  let* s := get in
  if has_key (listenersMap s) f then ret true else ret false.

(** The closure [off] of the object returned by [on]. *)
Definition token_off (t : token) : M bool :=
  let* present := hasListener (t_eventName t) (VFun (t_listener t)) in
  if present then
    Set_prototype_delete (t_subscribers t) (t_newListener t) >>
    modify (with_listenersMap (delete (t_listener t))) >>
    log "unsubscribe" (t_eventName t) VUndefined >>
    ret true
  else ret false.

Definition on (eventName listener : value) : M token :=
  let* f := assertListener listener in
  let* found := getSubscribers eventName in
  let* subscribers :=
    match found with
    | Some i => ret i
    | None =>
        let* i := new_Set in
        modify (with_eventsMap (insert eventName i)) >>
        ret i
    end in
  let* newListener := listenerWithLog eventName f in
  modify (with_listenersMap (insert f newListener)) >>
  Set_prototype_add subscribers newListener >>
  log "subscribe" eventName VUndefined >>
  ret (Token eventName f subscribers newListener).

Definition off (eventName listener : value) : M bool :=
  let* f := assertListener listener in
  assertEventName eventName >>
  let* s := get in
  if negb (has_key (eventsMap s) eventName) then throw UnknownKey else
  if negb (has_key (listenersMap s) f) then throw UnknownListener else
  let* listeners := getSubscribers eventName in
  let wrappedListener := listenersMap s !! f in
  match listeners with
  | Some listeners =>
      modify (with_listenersMap (delete f)) >>
      match wrappedListener with
      | Some w => Set_prototype_delete listeners w
      | None => ret tt
      end >>
      let* size := Set_prototype_size listeners in
      if Nat.eqb size 0 then modify (with_eventsMap (delete eventName)) else ret tt
  | None => ret tt
  end >>
  log "unsubscribe" eventName VUndefined >>
  ret true.

(** The snapshot [[...(this.getSubscribers(eventName) ?? new Set())]]. *)
Definition subscribers_of (s : emitter) (eventName : value) : list wrapped :=
  match eventsMap s !! eventName with
  | Some i => set_contents s i
  | None => []
  end.

(** ** Listeners and the programs that use the emitter

    A listener body, like any client of the emitter, is a finite tree of
    calls to the emitter: each call hands its outcome (the value returned or
    the error thrown, so that the client may catch it) to the rest of the
    program, which ends by returning a value or by throwing.  What a
    listener does may depend on its payload and on the outcomes of its
    calls. *)

Inductive call :=
| On (eventName listener : value)
| TokenOff (t : token)
| Emit (eventName payload : value)
| Off (eventName listener : value)
| HasListener (eventName listener : value).

Inductive result :=
| RUndefined
| RBool (b : bool)
| RToken (t : token).

Inductive prog :=
| Return (v : value)
| Raise (e : error)
| Do (c : call) (k : outcome result → prog).

Definition lift {A B} (f : A → B) (m : M A) : emitter → option (outcome B * emitter) :=
  λ s, match m s with
       | (Normal a, s') => Some (Normal (f a), s')
       | (Throw e, s') => Some (Throw e, s')
       end.

Section Interpreter.

(** What the function object number [f] does when applied to a payload. *)
Variable code : nat → value → prog.

Section Level.

(** How listener bodies are run: the interpreter with one unit of nesting
    less. *)
Variable run_body : prog → emitter → option (outcome value * emitter).

(** A call of the closure made by [listenerWithLog]:
    [const res = listener(payload); this.log("call-listener", eventName, res);
    return res]. *)
Definition call_wrapped (w : wrapped) (payload : value) (s : emitter)
  : option (outcome value * emitter) :=
  let d := depth s in
  let s1 := with_depth (S d) (with_calls (λ c, c ++ [CallRecord d w payload]) s) in
  match run_body (code (w_listener w) payload) s1 with
  | None => None
  | Some (Normal res, s2) =>
      Some (Normal res, snd (log "call-listener" (w_event w) res (with_depth d s2)))
  | Some (Throw e, s2) => Some (Throw e, with_depth d s2)
  end.

(** [staticListeners.forEach(listener => { listener(payload); })]. *)
Fixpoint forEach (staticListeners : list wrapped) (payload : value) (s : emitter)
  : option (outcome result * emitter) :=
  match staticListeners with
  | [] => Some (Normal RUndefined, s)
  | listener :: rest =>
      match call_wrapped listener payload s with
      | None => None
      | Some (Normal _, s') => forEach rest payload s'
      | Some (Throw e, s') => Some (Throw e, s')
      end
  end.

Definition emit_level (eventName payload : value) (s : emitter)
  : option (outcome result * emitter) :=
  match assertEventName eventName s with
  | (Throw e, s') => Some (Throw e, s')
  | (Normal _, s') =>
      let s1 := snd (log "emit" eventName payload s') in
      let staticListeners := subscribers_of s1 eventName in
      forEach staticListeners payload s1
  end.

Definition exec_level (c : call) : emitter → option (outcome result * emitter) :=
  match c with
  | On eventName listener => lift RToken (on eventName listener)
  | TokenOff t => lift RBool (token_off t)
  | Emit eventName payload => emit_level eventName payload
  | Off eventName listener => lift RBool (off eventName listener)
  | HasListener eventName listener => lift RBool (hasListener eventName listener)
  end.

Fixpoint run_level (p : prog) (s : emitter) : option (outcome value * emitter) :=
  match p with
  | Return v => Some (Normal v, s)
  | Raise e => Some (Throw e, s)
  | Do c k =>
      match exec_level c s with
      | None => None
      | Some (r, s') => run_level (k r) s'
      end
  end.

End Level.

(** [run n p] runs [p] with listener calls nested at most [n - 1] deep;
    [None] stands for a nesting that goes deeper. *)
Fixpoint run (n : nat) : prog → emitter → option (outcome value * emitter) :=
  match n with
  | 0 => λ _ _, None
  | S n' => run_level (run n')
  end.

(** [emit(eventName, payload)], listener bodies nested at most [n] deep. *)
Definition emit (n : nat) : value → value → emitter → option (outcome result * emitter) :=
  emit_level (run n).

Definition exec (n : nat) : call → emitter → option (outcome result * emitter) :=
  exec_level (run n).

End Interpreter.

(** ** Observations *)

(** The listener calls recorded between two states. *)
Definition new_calls (s s' : emitter) : list call_record :=
  drop (length (calls s)) (calls s').

(** The calls made at nesting depth [d], that is, by code running at that
    depth and not by the listeners it called. *)
Definition direct (d : nat) (tr : list call_record) : list call_record :=
  filter (λ c, c_depth c = d) tr.

(** The wrappers that a call starting in [s] and ending in [s'] has itself
    invoked, in order. *)
Definition invoked_by (s s' : emitter) : list wrapped :=
  c_wrapper <$> direct (depth s) (new_calls s s').

(** Whether a key passes [assertEventName]. *)
Definition valid_key (k : value) : Prop :=
  typeof k = TString ∨ typeof k = TSymbol ∨ typeof k = TNumber.

#[global] Instance valid_key_dec k : Decision (valid_key k).
Proof. unfold valid_key. apply _. Defined.


(** The invariant of the store.  Wrappers are numbered in the order of
    their registration, so a [Set] whose elements have increasing numbers
    lists them in registration order and holds none twice. *)
Record wf (s : emitter) : Prop := {
  wf_sorted : ∀ i l, sets s !! i = Some l → StronglySorted lt (w_id <$> l);
  wf_bound : ∀ i l, sets s !! i = Some l → Forall (λ w, w_id w < next_wrapper s) l;
  wf_alloc : ∀ i l, sets s !! i = Some l → i < next_set s;
  wf_events : ∀ k i, eventsMap s !! k = Some i → is_Some (sets s !! i);
  wf_inj : ∀ k1 k2 i, eventsMap s !! k1 = Some i → eventsMap s !! k2 = Some i → k1 = k2;
  wf_key : ∀ k i l, eventsMap s !! k = Some i → sets s !! i = Some l →
             Forall (λ w, w_event w = k) l;
}.

(** ** The states the methods leave behind

    The methods above are compositions of small steps; the records below
    spell out the state each of them ends in, and the lemmas [on_spec],
    [off_spec_ok] and [token_off_spec] show that they do. *)

(** The state after a successful [on]: the [Set] registered into, the
    wrapper made, and the fields written. *)
Definition on_set (eventName : value) (s : emitter) : nat :=
  match eventsMap s !! eventName with Some i => i | None => next_set s end.

Definition on_wrapper (eventName : value) (f : nat) (s : emitter) : wrapped :=
  Wrapped (next_wrapper s) eventName f.

Definition on_state (eventName : value) (f : nat) (s : emitter) : emitter :=
  let i := on_set eventName s in
  let w := on_wrapper eventName f s in
  {| eventsMap := match eventsMap s !! eventName with
                  | Some _ => eventsMap s
                  | None => <[eventName := i]> (eventsMap s)
                  end;
     listenersMap := <[f := w]> (listenersMap s);
     debug := debug s;
     sets := alter (Set_add w) i
               (match eventsMap s !! eventName with
                | Some _ => sets s
                | None => <[i := []]> (sets s)
                end);
     next_set := match eventsMap s !! eventName with
                 | Some _ => next_set s
                 | None => S (next_set s)
                 end;
     next_wrapper := S (next_wrapper s);
     console := console s ++ [LogEntry "subscribe" eventName VUndefined];
     calls := calls s;
     depth := depth s |}.

(** The state after a successful [off(k, f)], where [i] is the [Set] of [k]
    and [w] the wrapper recorded for [f]. *)
Definition off_state (k : value) (f i : nat) (w : wrapped) (s : emitter) : emitter :=
  let l := Set_delete w (set_contents s i) in
  {| eventsMap := if Nat.eqb (length l) 0 then delete k (eventsMap s) else eventsMap s;
     listenersMap := delete f (listenersMap s);
     debug := debug s;
     sets := alter (Set_delete w) i (sets s);
     next_set := next_set s;
     next_wrapper := next_wrapper s;
     console := console s ++ [LogEntry "unsubscribe" k VUndefined];
     calls := calls s;
     depth := depth s |}.

(** The state after the [off] of a token that found its listener. *)
Definition token_off_state (t : token) (s : emitter) : emitter :=
  {| eventsMap := eventsMap s;
     listenersMap := delete (t_listener t) (listenersMap s);
     debug := debug s;
     sets := alter (Set_delete (t_newListener t)) (t_subscribers t) (sets s);
     next_set := next_set s;
     next_wrapper := next_wrapper s;
     console := console s ++ [LogEntry "unsubscribe" (t_eventName t) VUndefined];
     calls := calls s;
     depth := depth s |}.

(** [steps s s' tr]: between [s] and [s'] the listener calls [tr] were
    recorded, none of them at a depth below that of [s], and the depth is
    back to what it was. *)
Definition steps (s s' : emitter) (tr : list call_record) : Prop :=
  depth s' = depth s ∧
  calls s' = calls s ++ tr ∧
  Forall (λ c, depth s ≤ c_depth c) tr.

(** The states that a client can bring a new emitter into. *)
Definition reachable (code : nat → value → prog) (s : emitter) : Prop :=
  ∃ options n p o, run code n p (new_emitter options) = Some (o, s).

(** ** Example clients and listeners *)

(** The state a method leaves behind. *)
Definition after {A} (m : M A) (s : emitter) : emitter := (m s).2.

(** Four listeners: 0 returns, 1 throws, 2 unsubscribes listener 0 from
    ["a"] and subscribes listener 3 to it, the others return a number. *)
Definition ex_code (f : nat) (payload : value) : prog :=
  match f with
  | 0 => Return VUndefined
  | 1 => Raise (UserError (VStr "boom"))
  | 2 => Do (Off (VStr "a") (VFun 0)) (λ _,
         Do (On (VStr "a") (VFun 3)) (λ _,
         Return VUndefined))
  | _ => Return (VNum 1)
  end.

Definition ex_new : emitter := new_emitter None.

(** [on("a", f0); on("a", f3)] *)
Definition ex_two : emitter :=
  after (on (VStr "a") (VFun 3)) (after (on (VStr "a") (VFun 0)) ex_new).

(** [on("a", f1); on("a", f0)]: the first listener throws. *)
Definition ex_throwing : emitter :=
  after (on (VStr "a") (VFun 0)) (after (on (VStr "a") (VFun 1)) ex_new).

(** [on("a", f2); on("a", f0)]: the first listener changes the
    registrations of ["a"]. *)
Definition ex_mutating : emitter :=
  after (on (VStr "a") (VFun 0)) (after (on (VStr "a") (VFun 2)) ex_new).

(** A client that subscribes listener 0 to ["a"] and calls the token's
    [off]. *)
Definition ex_subscribe_then_token_off : prog :=
  Do (On (VStr "a") (VFun 0)) (λ r,
    match r with
    | Normal (RToken t) => Do (TokenOff t) (λ _, Return VUndefined)
    | _ => Return VUndefined
    end).

(** An emitter made with [{ debug: false }]. *)
Definition ex_quiet : emitter := new_emitter (Some {| opt_debug := Some false |}).

(** Two states with the same registrations: nothing but the console and
    the record of listener calls may differ. *)
Definition same_registrations (s s' : emitter) : Prop :=
  eventsMap s' = eventsMap s ∧
  listenersMap s' = listenersMap s ∧
  sets s' = sets s ∧
  next_set s' = next_set s ∧
  next_wrapper s' = next_wrapper s ∧
  debug s' = debug s ∧
  depth s' = depth s.

(** A client that subscribes listener 0 to ["a"] and ["b"], unsubscribes it
    from ["a"] and publishes ["b"]. *)
Definition ex_client : prog :=
  Do (On (VStr "a") (VFun 0)) (λ _,
  Do (On (VStr "b") (VFun 3)) (λ _,
  Do (Off (VStr "a") (VFun 0)) (λ _,
  Do (Emit (VStr "b") VNull) (λ _,
  Return VUndefined)))).

(** The record left by a dispatch at depth [d]: for each listener called,
    its call followed by the calls it caused. *)
Definition dispatch_trace (d : nat) (payload : value)
    (segs : list (wrapped * list call_record)) : list call_record :=
  concat ((λ seg, CallRecord d seg.1 payload :: seg.2) <$> segs).

(** The listeners of [ex_code], and listener 5, which publishes ["a"]. *)
Definition ex_relay_code (f : nat) (payload : value) : prog :=
  match f with
  | 5 => Do (Emit (VStr "a") VNull) (λ _, Return VUndefined)
  | _ => ex_code f payload
  end.

(** [on("a", f0); on("b", f5); on("b", f0)] *)
Definition ex_relay : emitter :=
  after (on (VStr "b") (VFun 0))
    (after (on (VStr "b") (VFun 5)) (after (on (VStr "a") (VFun 0)) ex_new)).

(** The wrappers that a state holds, in a [Set] or in [listenersMap]. *)
Definition in_state (s : emitter) (w : wrapped) : Prop :=
  (∃ i l, sets s !! i = Some l ∧ w ∈ l) ∨ (∃ f, listenersMap s !! f = Some w).

(** The wrappers of a state are told apart by their numbers, all of them
    allocated, and the one recorded for a listener wraps that listener. *)
Record wrappers_ok (s : emitter) : Prop := {
  wo_bound : ∀ w, in_state s w → w_id w < next_wrapper s;
  wo_unique : ∀ w w', in_state s w → in_state s w' → w_id w = w_id w' → w = w';
  wo_listener : ∀ f w, listenersMap s !! f = Some w → w_listener w = f;
}.

(** The state a run ends in, [d] if it has no result. *)
Definition final {A} (r : option (outcome A * emitter)) (d : emitter) : emitter :=
  match r with Some (_, s) => s | None => d end.

(** * Properties *)

Ltac unfold_M :=
  unfold bind, ret, throw, get, modify, getSubscribers, log, listenerWithLog,
    new_Set, Set_prototype_add, Set_prototype_delete, Set_prototype_size in *.

(** ** The assertions *)

Lemma assertEventName_valid k s :
  valid_key k → assertEventName k s = (Normal tt, s).
Proof.
  unfold valid_key, assertEventName, ret.
  intros [-> | [-> | ->]]; reflexivity.
Qed.

Lemma assertEventName_invalid k s :
  ¬ valid_key k → assertEventName k s = (Throw InvalidKeyType, s).
Proof.
  unfold valid_key, assertEventName, ret, throw.
  destruct (typeof k); intros H; try reflexivity; exfalso; apply H; auto.
Qed.

Lemma assertEventName_state k s o s' :
  assertEventName k s = (o, s') → s' = s.
Proof.
  unfold assertEventName, ret, throw. destruct (typeof k); congruence.
Qed.

Lemma has_key_true `{Countable K} {V} (m : gmap K V) k :
  has_key m k = true ↔ is_Some (m !! k).
Proof.
  unfold has_key. destruct (m !! k) as [v|].
  - split; eauto.
  - split; [done | intros [v Hv]; done].
Qed.

Lemma has_key_false `{Countable K} {V} (m : gmap K V) k :
  has_key m k = false ↔ m !! k = None.
Proof. unfold has_key. destruct (m !! k); split; done. Qed.

(** ** [hasListener] *)

Lemma hasListener_spec k f s :
  valid_key k →
  hasListener k (VFun f) s = (Normal (has_key (listenersMap s) f), s).
Proof.
  intros Hk. unfold hasListener, bind, assertListener, ret, get.
  rewrite (assertEventName_valid k s Hk).
  destruct (has_key (listenersMap s) f); reflexivity.
Qed.

Lemma hasListener_state k l s o s' :
  hasListener k l s = (o, s') → s' = s.
Proof.
  unfold hasListener, bind, assertListener, ret, throw, get.
  destruct l; try congruence.
  destruct (assertEventName k s) as [[[]|e] s1] eqn:E;
    apply assertEventName_state in E; subst s1; try congruence.
  destruct (has_key (listenersMap s) f); congruence.
Qed.

(** ** [on] *)

Lemma on_spec k f s :
  on k (VFun f) s =
    (Normal (Token k f (on_set k s) (on_wrapper k f s)), on_state k f s).
Proof.
  unfold on, on_state, on_set, on_wrapper, subscribers_of, assertListener.
  unfold_M. simpl.
  destruct (eventsMap s !! k) as [i|] eqn:E; reflexivity.
Qed.

Lemma on_not_callable k l s :
  typeof l ≠ TFunction → on k l s = (Throw InvalidListenerType, s).
Proof.
  intros H. unfold on, bind, assertListener, throw.
  destruct l; simpl in *; congruence.
Qed.

(** ** [off] *)

Lemma off_spec_ok k f i w s :
  valid_key k →
  eventsMap s !! k = Some i →
  listenersMap s !! f = Some w →
  off k (VFun f) s = (Normal true, off_state k f i w s).
Proof.
  intros Hk Hi Hw. unfold off, off_state, bind at 1 2, assertListener, ret at 1.
  rewrite (assertEventName_valid k s Hk). unfold_M. simpl.
  unfold has_key. rewrite Hi, Hw. simpl.
  rewrite ?Hi. simpl.
  unfold set_contents at 1. simpl. rewrite lookup_alter_eq.
  replace (default [] (Set_delete w <$> sets s !! i))
    with (Set_delete w (set_contents s i))
    by (unfold set_contents; destruct (sets s !! i); reflexivity).
  destruct (length (Set_delete w (set_contents s i)) =? 0); reflexivity.
Qed.

Lemma off_unknown_key k f s :
  valid_key k →
  eventsMap s !! k = None →
  off k (VFun f) s = (Throw UnknownKey, s).
Proof.
  intros Hk Hi. unfold off, bind at 1 2, assertListener, ret at 1.
  rewrite (assertEventName_valid k s Hk). unfold_M. simpl.
  unfold has_key. rewrite Hi. reflexivity.
Qed.

Lemma off_unknown_listener k f i s :
  valid_key k →
  eventsMap s !! k = Some i →
  listenersMap s !! f = None →
  off k (VFun f) s = (Throw UnknownListener, s).
Proof.
  intros Hk Hi Hw. unfold off, bind at 1 2, assertListener, ret at 1.
  rewrite (assertEventName_valid k s Hk). unfold_M. simpl.
  unfold has_key. rewrite Hi, Hw. reflexivity.
Qed.

Lemma off_invalid_key k f s :
  ¬ valid_key k → off k (VFun f) s = (Throw InvalidKeyType, s).
Proof.
  intros Hk. unfold off, bind at 1 2, assertListener, ret at 1.
  rewrite (assertEventName_invalid k s Hk). reflexivity.
Qed.

Lemma off_not_callable k l s :
  typeof l ≠ TFunction → off k l s = (Throw InvalidListenerType, s).
Proof.
  intros H. unfold off, bind, assertListener, throw.
  destruct l; simpl in *; congruence.
Qed.

(** The five ways [off] can end. *)
Lemma off_cases k l s :
  (typeof l ≠ TFunction ∧ off k l s = (Throw InvalidListenerType, s)) ∨
  (∃ f, l = VFun f ∧
     ((¬ valid_key k ∧ off k l s = (Throw InvalidKeyType, s)) ∨
      (valid_key k ∧ eventsMap s !! k = None ∧ off k l s = (Throw UnknownKey, s)) ∨
      (valid_key k ∧ is_Some (eventsMap s !! k) ∧ listenersMap s !! f = None ∧
         off k l s = (Throw UnknownListener, s)) ∨
      (∃ i w, valid_key k ∧ eventsMap s !! k = Some i ∧ listenersMap s !! f = Some w ∧
         off k l s = (Normal true, off_state k f i w s)))).
Proof.
  destruct (decide (typeof l = TFunction)) as [Hl | Hl].
  - right. destruct l; try discriminate. exists f. split; [reflexivity |].
    destruct (decide (valid_key k)) as [Hk | Hk].
    + right. destruct (eventsMap s !! k) as [i|] eqn:Hi.
      * right. destruct (listenersMap s !! f) as [w|] eqn:Hw.
        -- right. exists i, w. eauto using off_spec_ok.
        -- left. eauto 6 using off_unknown_listener.
      * left. eauto using off_unknown_key.
    + left. eauto using off_invalid_key.
  - left. eauto using off_not_callable.
Qed.

(** ** The [off] of a token *)

Lemma token_off_spec t s :
  token_off t s =
    if decide (valid_key (t_eventName t)) then
      if has_key (listenersMap s) (t_listener t)
      then (Normal true, token_off_state t s)
      else (Normal false, s)
    else (Throw InvalidKeyType, s).
Proof.
  unfold token_off. unfold bind at 1.
  destruct (decide (valid_key (t_eventName t))) as [Hk | Hk].
  - rewrite (hasListener_spec _ _ _ Hk).
    destruct (has_key (listenersMap s) (t_listener t)); reflexivity.
  - unfold hasListener, bind, assertListener, ret.
    rewrite (assertEventName_invalid _ s Hk). reflexivity.
Qed.

(** ** [Set] operations on lists *)

Lemma Set_add_fresh w l :
  Forall (λ x, w_id x < w_id w) l → Set_add w l = l ++ [w].
Proof.
  intros Hl. unfold Set_add, Set_has.
  rewrite bool_decide_eq_false_2; [reflexivity |].
  intros Hin. apply list_elem_of_fmap in Hin as (x & Hx & Hxl).
  rewrite Forall_forall in Hl. apply Hl in Hxl. lia.
Qed.

Lemma Set_delete_sorted w l :
  StronglySorted lt (w_id <$> l) → StronglySorted lt (w_id <$> Set_delete w l).
Proof.
  unfold Set_delete. induction l as [|x l IH]; simpl; intros Hs.
  - constructor.
  - apply StronglySorted_inv in Hs as [Hs Hx].
    rewrite filter_cons. case_decide; simpl; [|by apply IH].
    constructor; [by apply IH |].
    rewrite Forall_fmap in Hx |- *.
    rewrite Forall_forall in Hx |- *.
    intros y Hy. apply list_elem_of_filter in Hy as [_ Hy]. by apply Hx.
Qed.

Lemma Set_delete_Forall (P : wrapped → Prop) w l :
  Forall P l → Forall P (Set_delete w l).
Proof.
  unfold Set_delete. rewrite !Forall_forall. intros H x Hx.
  apply list_elem_of_filter in Hx as [_ Hx]. by apply H.
Qed.


Lemma Set_delete_absent w l :
  Forall (λ x, w_id x ≠ w_id w) l → Set_delete w l = l.
Proof.
  unfold Set_delete. induction 1 as [|x l Hx Hl IH]; [reflexivity |].
  rewrite filter_cons. rewrite decide_True by done. by rewrite IH.
Qed.

Lemma Set_delete_last w l :
  Forall (λ x, w_id x < w_id w) l → Set_delete w (l ++ [w]) = l.
Proof.
  intros Hl. unfold Set_delete. rewrite filter_app.
  rewrite filter_cons, decide_False by (intros H; by apply H).
  rewrite filter_nil, app_nil_r.
  apply Set_delete_absent. eapply Forall_impl; [exact Hl |]. simpl. lia.
Qed.

Lemma sorted_snoc (l : list wrapped) w :
  StronglySorted lt (w_id <$> l) →
  Forall (λ x, w_id x < w_id w) l →
  StronglySorted lt (w_id <$> (l ++ [w])).
Proof.
  induction l as [|x l IH]; simpl; intros Hs Hl.
  - repeat constructor.
  - apply StronglySorted_inv in Hs as [Hs Hx].
    apply Forall_cons in Hl as [Hxw Hl].
    constructor; [by apply IH |].
    rewrite fmap_app. apply Forall_app. split; [done |].
    simpl. repeat constructor. done.
Qed.

Lemma sorted_NoDup (l : list wrapped) :
  StronglySorted lt (w_id <$> l) → NoDup l.
Proof.
  induction l as [|x l IH]; simpl; intros Hs; [constructor |].
  apply StronglySorted_inv in Hs as [Hs Hx].
  constructor; [| by apply IH].
  intros Hin. rewrite Forall_fmap, Forall_forall in Hx.
  apply Hx in Hin. simpl in Hin. lia.
Qed.

(** ** The invariant *)

Lemma wf_new options : wf (new_emitter options).
Proof. split; simpl; intros *; rewrite ?lookup_empty; done. Qed.

Lemma wf_subscribers s k :
  wf s →
  StronglySorted lt (w_id <$> subscribers_of s k) ∧
  Forall (λ w, w_id w < next_wrapper s) (subscribers_of s k) ∧
  Forall (λ w, w_event w = k) (subscribers_of s k).
Proof.
  intros Hwf. unfold subscribers_of, set_contents.
  destruct (eventsMap s !! k) as [i|] eqn:Hi; [| repeat split; constructor].
  destruct (wf_events s Hwf k i Hi) as [l Hl]. rewrite Hl. simpl.
  split; [eapply wf_sorted; eauto |].
  split; [eapply wf_bound; eauto | eapply wf_key; eauto].
Qed.

Lemma on_state_sets s k f j :
  wf s →
  sets (on_state k f s) !! j =
    if decide (j = on_set k s)
    then Some (subscribers_of s k ++ [on_wrapper k f s])
    else sets s !! j.
Proof.
  intros Hwf. destruct (wf_subscribers s k Hwf) as (_ & Hb & _).
  revert Hb. unfold on_state, on_set, subscribers_of, set_contents. simpl.
  destruct (eventsMap s !! k) as [i|] eqn:Hi; intros Hb.
  - destruct (wf_events s Hwf k i Hi) as [l Hl]. rewrite Hl in Hb |- *.
    case_decide as Hj.
    + subst j. rewrite lookup_alter_eq, Hl. simpl.
      by rewrite Set_add_fresh.
    + by rewrite lookup_alter_ne.
  - case_decide as Hj.
    + subst j. rewrite lookup_alter_eq, lookup_insert_eq. reflexivity.
    + rewrite lookup_alter_ne, lookup_insert_ne by done. reflexivity.
Qed.

Lemma on_state_events s k f k' :
  eventsMap (on_state k f s) !! k' =
    if decide (k' = k) then Some (on_set k s) else eventsMap s !! k'.
Proof.
  unfold on_state, on_set. simpl.
  destruct (eventsMap s !! k) as [i|] eqn:Hi.
  - case_decide; by subst.
  - case_decide; subst; by rewrite ?lookup_insert_eq, ?lookup_insert_ne.
Qed.

Lemma on_set_fresh s k k' i :
  wf s → eventsMap s !! k' = Some i → i = on_set k s → k' = k.
Proof.
  intros Hwf Hi. unfold on_set.
  destruct (eventsMap s !! k) as [i0|] eqn:Hi0; intros ->.
  - eauto using wf_inj.
  - destruct (wf_events s Hwf k' _ Hi) as [l Hl].
    pose proof (wf_alloc s Hwf _ _ Hl). lia.
Qed.

Lemma on_state_subscribers s k f :
  wf s →
  subscribers_of (on_state k f s) k = subscribers_of s k ++ [on_wrapper k f s].
Proof.
  intros Hwf. unfold subscribers_of at 1, set_contents.
  rewrite on_state_events, decide_True by done.
  rewrite on_state_sets, decide_True by done. reflexivity.
Qed.

Lemma on_state_subscribers_ne s k f k' :
  wf s → k' ≠ k →
  subscribers_of (on_state k f s) k' = subscribers_of s k'.
Proof.
  intros Hwf Hne. unfold subscribers_of, set_contents.
  rewrite on_state_events, decide_False by done.
  destruct (eventsMap s !! k') as [i|] eqn:Hi; [| reflexivity].
  rewrite on_state_sets by done. case_decide as Hj; [| reflexivity].
  exfalso. apply Hne. eauto using on_set_fresh.
Qed.

Lemma wf_ext s s' :
  wf s →
  sets s' = sets s → eventsMap s' = eventsMap s →
  next_set s' = next_set s → next_wrapper s' = next_wrapper s →
  wf s'.
Proof.
  intros [H1 H2 H3 H4 H5 H6] Es Ee En Ew.
  split; rewrite ?Es, ?Ee, ?En, ?Ew; assumption.
Qed.

Lemma wf_on s k f : wf s → wf (on_state k f s).
Proof.
  intros Hwf. destruct (wf_subscribers s k Hwf) as (Hso & Hbo & Hke).
  assert (Hns : next_set s ≤ next_set (on_state k f s)).
  { simpl. destruct (eventsMap s !! k); lia. }
  assert (Hon : on_set k s < next_set (on_state k f s)).
  { unfold on_set. simpl. destruct (eventsMap s !! k) as [i|] eqn:Hi; [| lia].
    destruct (wf_events s Hwf k i Hi) as [l Hl]. eauto using wf_alloc. }
  split.
  - intros i l. rewrite on_state_sets by done. case_decide.
    + intros [= <-]. by apply sorted_snoc.
    + eauto using wf_sorted.
  - intros i l. rewrite on_state_sets by done. simpl. case_decide.
    + intros [= <-]. apply Forall_app. split.
      * eapply Forall_impl; [exact Hbo |]. simpl. lia.
      * repeat constructor.
    + intros Hl. eapply Forall_impl; [eapply wf_bound; eauto |]. simpl. lia.
  - intros i l. rewrite on_state_sets by done. case_decide.
    + intros _. by subst i.
    + intros Hl. pose proof (wf_alloc s Hwf _ _ Hl). lia.
  - intros k' i. rewrite on_state_events. rewrite on_state_sets by done.
    case_decide.
    + intros [= <-]. rewrite decide_True by done. eauto.
    + intros Hi. case_decide; eauto using wf_events.
  - intros k1 k2 i. rewrite !on_state_events.
    do 2 case_decide; subst; try done.
    + intros [= <-] Hi. symmetry. eauto using on_set_fresh.
    + intros Hi [= <-]. eauto using on_set_fresh.
    + eauto using wf_inj.
  - intros k' i l. rewrite on_state_events. rewrite on_state_sets by done.
    case_decide as Hk.
    + subst k'. intros [= <-]. rewrite decide_True by done. intros [= <-].
      apply Forall_app. split; [done | repeat constructor].
    + intros Hi. case_decide as Hj.
      * exfalso. apply Hk. eauto using on_set_fresh.
      * eauto using wf_key.
Qed.

(** Removing elements from [Set] objects and entries from [eventsMap]
    keeps the invariant. *)
Lemma wf_shrink s s' (w : wrapped) (i : nat) :
  wf s →
  sets s' = alter (Set_delete w) i (sets s) →
  (∀ k j, eventsMap s' !! k = Some j → eventsMap s !! k = Some j) →
  next_set s' = next_set s → next_wrapper s' = next_wrapper s →
  wf s'.
Proof.
  intros Hwf Es Ee En Ew.
  assert (Hl : ∀ j l, sets s' !! j = Some l →
            ∃ l0, sets s !! j = Some l0 ∧ (l = l0 ∨ l = Set_delete w l0)).
  { intros j l. rewrite Es. destruct (decide (i = j)) as [<- | Hne].
    - rewrite lookup_alter_eq. destruct (sets s !! i) as [l0|]; [| done].
      simpl. intros [= <-]. eauto.
    - rewrite lookup_alter_ne by done. eauto. }
  split.
  - intros j l Hj. apply Hl in Hj as (l0 & Hj & [-> | ->]).
    + eauto using wf_sorted.
    + apply Set_delete_sorted. eauto using wf_sorted.
  - intros j l Hj. rewrite Ew. apply Hl in Hj as (l0 & Hj & [-> | ->]).
    + eapply wf_bound; eauto.
    + apply Set_delete_Forall. eapply wf_bound; eauto.
  - intros j l Hj. rewrite En. apply Hl in Hj as (l0 & Hj & _).
    eauto using wf_alloc.
  - intros k j Hk. apply Ee in Hk. apply (wf_events s Hwf) in Hk as [l0 Hl0].
    rewrite Es. apply lookup_alter_is_Some. eauto.
  - intros k1 k2 j H1 H2. apply Ee in H1, H2. eauto using wf_inj.
  - intros k j l Hk Hj. apply Ee in Hk. apply Hl in Hj as (l0 & Hj & [-> | ->]).
    + eapply wf_key; eauto.
    + apply Set_delete_Forall. eapply wf_key; eauto.
Qed.

Lemma wf_off s k f i w : wf s → wf (off_state k f i w s).
Proof.
  intros Hwf. eapply (wf_shrink s _ w i); eauto; simpl.
  intros k' j. destruct (_ =? 0); [| done].
  intros H. apply lookup_delete_Some in H. tauto.
Qed.

Lemma wf_token_off s t : wf s → wf (token_off_state t s).
Proof.
  intros Hwf.
  eapply (wf_shrink s _ (t_newListener t) (t_subscribers t)); eauto.
Qed.

Lemma wf_with_console g s : wf s → wf (with_console g s).
Proof. intros H. eapply wf_ext; eauto. Qed.

Lemma wf_with_calls g s : wf s → wf (with_calls g s).
Proof. intros H. eapply wf_ext; eauto. Qed.

Lemma wf_with_depth d s : wf s → wf (with_depth d s).
Proof. intros H. eapply wf_ext; eauto. Qed.

(** Every method keeps the invariant, however it ends. *)
Lemma on_wf k l s : wf s → wf (on k l s).2.
Proof.
  intros Hwf. destruct (decide (typeof l = TFunction)) as [Hl | Hl].
  - destruct l; try discriminate. rewrite on_spec. simpl. by apply wf_on.
  - by rewrite on_not_callable.
Qed.

Lemma off_wf k l s : wf s → wf (off k l s).2.
Proof.
  intros Hwf.
  destruct (off_cases k l s) as
    [[_ ->] | (f & -> & [[_ ->] | [(_ & _ & ->) | [(_ & _ & _ & ->) | (i & w & _ & _ & _ & ->)]]])];
    simpl; auto using wf_off.
Qed.

Lemma token_off_wf t s : wf s → wf (token_off t s).2.
Proof.
  intros Hwf. rewrite token_off_spec.
  repeat case_match; simpl; auto using wf_token_off.
Qed.

Lemma hasListener_wf k l s : wf s → wf (hasListener k l s).2.
Proof.
  intros Hwf. destruct (hasListener k l s) as [o s'] eqn:E.
  apply hasListener_state in E. by subst.
Qed.

(** ** Listener calls *)

Lemma steps_refl s s' :
  calls s' = calls s → depth s' = depth s → steps s s' [].
Proof. intros Hc Hd. repeat split; [done | by rewrite app_nil_r | constructor]. Qed.

Lemma steps_trans s1 s2 s3 tr tr' :
  steps s1 s2 tr → steps s2 s3 tr' → steps s1 s3 (tr ++ tr').
Proof.
  intros (Hd & Hc & Hf) (Hd' & Hc' & Hf'). repeat split.
  - congruence.
  - rewrite Hc', Hc. by rewrite app_assoc.
  - apply Forall_app. split; [done |]. by rewrite <- Hd.
Qed.

Lemma steps_new_calls s s' tr : steps s s' tr → new_calls s s' = tr.
Proof.
  intros (_ & Hc & _). unfold new_calls. rewrite Hc.
  by rewrite drop_app_length.
Qed.

Lemma direct_deeper d tr :
  Forall (λ c, d < c_depth c) tr → direct d tr = [].
Proof.
  unfold direct. induction 1 as [|c tr Hc _ IH]; [reflexivity |].
  rewrite filter_cons, decide_False by lia. exact IH.
Qed.

Lemma on_frame k l s : calls (on k l s).2 = calls s ∧ depth (on k l s).2 = depth s.
Proof.
  destruct (decide (typeof l = TFunction)) as [Hl | Hl].
  - destruct l; try discriminate. by rewrite on_spec.
  - by rewrite on_not_callable.
Qed.

Lemma off_frame k l s : calls (off k l s).2 = calls s ∧ depth (off k l s).2 = depth s.
Proof.
  destruct (off_cases k l s) as
    [[_ ->] | (f & -> & [[_ ->] | [(_ & _ & ->) | [(_ & _ & _ & ->) | (i & w & _ & _ & _ & ->)]]])];
    done.
Qed.

Lemma token_off_frame t s :
  calls (token_off t s).2 = calls s ∧ depth (token_off t s).2 = depth s.
Proof. rewrite token_off_spec. by repeat case_match. Qed.

Lemma lift_inv {A B} (g : A → B) (m : M A) s o s' :
  lift g m s = Some (o, s') → s' = (m s).2.
Proof. unfold lift. destruct (m s) as [[a|e] s1]; by intros [= _ <-]. Qed.


Section Level_facts.

Variable code : nat → value → prog.
Variable run_body : prog → emitter → option (outcome value * emitter).

Hypothesis body_wf : ∀ p s o s',
  run_body p s = Some (o, s') → wf s → wf s'.
Hypothesis body_steps : ∀ p s o s',
  run_body p s = Some (o, s') → ∃ tr, steps s s' tr.

Lemma call_wrapped_wf w payload s o s' :
  call_wrapped code run_body w payload s = Some (o, s') → wf s → wf s'.
Proof.
  unfold call_wrapped. intros H Hwf.
  destruct (run_body _ _) as [[[res|e] s2]|] eqn:E; simplify_eq; simpl.
  - apply wf_with_console, wf_with_depth.
    eapply body_wf; [exact E |]. by apply wf_with_depth, wf_with_calls.
  - apply wf_with_depth.
    eapply body_wf; [exact E |]. by apply wf_with_depth, wf_with_calls.
Qed.

(** A wrapper call records itself at the current depth; whatever its
    listener then causes is recorded deeper. *)
Lemma call_wrapped_steps w payload s o s' :
  call_wrapped code run_body w payload s = Some (o, s') →
  ∃ tr, steps s s' (CallRecord (depth s) w payload :: tr) ∧
        Forall (λ c, depth s < c_depth c) tr.
Proof.
  unfold call_wrapped. intros H.
  destruct (run_body _ _) as [[o2 s2]|] eqn:E; [| done].
  apply body_steps in E as (tr & Hd & Hc & Hf). simpl in Hd, Hc, Hf.
  exists tr.
  assert (Hs' : depth s' = depth s ∧ calls s' = calls s2).
  { destruct o2; simplify_eq; done. }
  destruct Hs' as [Hd' Hc']. split; [| exact Hf].
  repeat split.
  - exact Hd'.
  - rewrite Hc', Hc. by rewrite <- app_assoc.
  - constructor; [simpl; lia |].
    eapply Forall_impl; [exact Hf |]. simpl. lia.
Qed.

Lemma forEach_wf ws payload s o s' :
  forEach code run_body ws payload s = Some (o, s') → wf s → wf s'.
Proof.
  revert s. induction ws as [|w ws IH]; simpl; intros s H Hwf.
  - by simplify_eq.
  - destruct (call_wrapped _ _ _ _ _) as [[[res|e] s1]|] eqn:E; [| | done].
    + eapply IH; [exact H |]. eauto using call_wrapped_wf.
    + simplify_eq. eauto using call_wrapped_wf.
Qed.

(** The loop calls the elements of the array it was given, from the first
    on, and stops early only when a call throws. *)
Lemma forEach_steps ws payload s o s' :
  forEach code run_body ws payload s = Some (o, s') →
  ∃ tr ws1 ws2,
    steps s s' tr ∧
    ws = ws1 ++ ws2 ∧
    direct (depth s) tr = (λ w, CallRecord (depth s) w payload) <$> ws1 ∧
    (is_normal o = true → ws2 = []) ∧
    (is_normal o = false → ws1 ≠ []).
Proof.
  revert s. induction ws as [|w ws IH]; simpl; intros s H.
  - simplify_eq. exists [], [], []. split; [by apply steps_refl |]. done.
  - destruct (call_wrapped _ _ _ _ _) as [[[res|e] s1]|] eqn:E; [| | done].
    + apply call_wrapped_steps in E as (tr1 & Hs1 & Hdeep).
      apply IH in H as (tr2 & ws1 & ws2 & Hs2 & -> & Hdir & Hn & Ht).
      exists ((CallRecord (depth s) w payload :: tr1) ++ tr2), (w :: ws1), ws2.
      split; [eauto using steps_trans |].
      split; [done |]. split; [| done].
      destruct Hs1 as (Hd1 & _). rewrite Hd1 in Hdir.
      unfold direct in *. rewrite filter_app, filter_cons, decide_True by done.
      fold (direct (depth s) tr1). rewrite (direct_deeper _ _ Hdeep).
      simpl. by rewrite Hdir.
    + simplify_eq.
      apply call_wrapped_steps in E as (tr1 & Hs1 & Hdeep).
      exists (CallRecord (depth s) w payload :: tr1), [w], ws.
      split; [done |]. split; [done |]. split; [| done].
      unfold direct. rewrite filter_cons, decide_True by done.
      fold (direct (depth s) tr1). by rewrite (direct_deeper _ _ Hdeep).
Qed.

Lemma emit_level_wf k payload s o s' :
  emit_level code run_body k payload s = Some (o, s') → wf s → wf s'.
Proof.
  unfold emit_level. intros H Hwf.
  destruct (assertEventName k s) as [[[]|e] s1] eqn:E;
    apply assertEventName_state in E; subst s1.
  - eapply forEach_wf; [exact H |]. by apply wf_with_console.
  - by simplify_eq.
Qed.

Lemma emit_level_invalid k payload s :
  ¬ valid_key k →
  emit_level code run_body k payload s = Some (Throw InvalidKeyType, s).
Proof.
  intros Hk. unfold emit_level. by rewrite (assertEventName_invalid k s Hk).
Qed.

Lemma emit_level_valid k payload s :
  valid_key k →
  emit_level code run_body k payload s =
    forEach code run_body (subscribers_of s k) payload
      (with_console (λ c, c ++ [LogEntry "emit" k payload]) s).
Proof.
  intros Hk. unfold emit_level. by rewrite (assertEventName_valid k s Hk).
Qed.

Lemma emit_level_steps k payload s o s' :
  valid_key k →
  emit_level code run_body k payload s = Some (o, s') →
  ∃ tr ws1 ws2,
    steps s s' tr ∧
    subscribers_of s k = ws1 ++ ws2 ∧
    direct (depth s) tr = (λ w, CallRecord (depth s) w payload) <$> ws1 ∧
    (is_normal o = true → ws2 = []) ∧
    (is_normal o = false → ws1 ≠ []).
Proof.
  intros Hk. rewrite emit_level_valid by done. intros H.
  apply forEach_steps in H as (tr & ws1 & ws2 & Hs & Hw & Hd & Hn).
  exists tr, ws1, ws2. done.
Qed.

Lemma exec_level_wf c s o s' :
  exec_level code run_body c s = Some (o, s') → wf s → wf s'.
Proof.
  destruct c; simpl; intros H Hwf;
    try (apply lift_inv in H; subst s').
  - by apply on_wf.
  - by apply token_off_wf.
  - eauto using emit_level_wf.
  - by apply off_wf.
  - by apply hasListener_wf.
Qed.

Lemma exec_level_steps c s o s' :
  exec_level code run_body c s = Some (o, s') → ∃ tr, steps s s' tr.
Proof.
  destruct c; simpl; intros H;
    try (apply lift_inv in H; subst s'; exists []; apply steps_refl).
  - apply on_frame. - apply on_frame.
  - apply token_off_frame. - apply token_off_frame.
  - destruct (decide (valid_key eventName)) as [Hk | Hk].
    + apply emit_level_steps in H as (tr & _ & _ & Hs & _); eauto.
    + rewrite emit_level_invalid in H by done. simplify_eq.
      exists []. by apply steps_refl.
  - apply off_frame. - apply off_frame.
  - by rewrite (hasListener_state _ _ _ _ _ (surjective_pairing _)).
  - by rewrite (hasListener_state _ _ _ _ _ (surjective_pairing _)).
Qed.

Lemma run_level_wf p s o s' :
  run_level code run_body p s = Some (o, s') → wf s → wf s'.
Proof.
  revert s. induction p as [v | e | c k IH]; simpl; intros s H Hwf.
  - by simplify_eq.
  - by simplify_eq.
  - destruct (exec_level _ _ _ _) as [[r s1]|] eqn:E; [| done].
    eapply IH; [exact H |]. eauto using exec_level_wf.
Qed.

Lemma run_level_steps p s o s' :
  run_level code run_body p s = Some (o, s') → ∃ tr, steps s s' tr.
Proof.
  revert s. induction p as [v | e | c k IH]; simpl; intros s H.
  - simplify_eq. exists []. by apply steps_refl.
  - simplify_eq. exists []. by apply steps_refl.
  - destruct (exec_level _ _ _ _) as [[r s1]|] eqn:E; [| done].
    apply exec_level_steps in E as [tr1 H1].
    apply IH in H as [tr2 H2]. eauto using steps_trans.
Qed.


End Level_facts.

(** ** The interpreter at every nesting bound *)

Lemma run_wf code n p s o s' :
  run code n p s = Some (o, s') → wf s → wf s'.
Proof.
  revert p s o s'. induction n as [|n IH]; simpl; intros p s o s'; [done |].
  apply run_level_wf. exact IH.
Qed.

Lemma run_steps code n p s o s' :
  run code n p s = Some (o, s') → ∃ tr, steps s s' tr.
Proof.
  revert p s o s'. induction n as [|n IH]; simpl; intros p s o s'; [done |].
  by apply run_level_steps.
Qed.

Lemma emit_wf code n k payload s o s' :
  emit code n k payload s = Some (o, s') → wf s → wf s'.
Proof. apply emit_level_wf. apply run_wf. Qed.

Lemma exec_wf code n c s o s' :
  exec code n c s = Some (o, s') → wf s → wf s'.
Proof. apply exec_level_wf. apply run_wf. Qed.

Lemma reachable_wf code s : reachable code s → wf s.
Proof.
  intros (options & n & p & o & H). eapply run_wf; [exact H |]. apply wf_new.
Qed.

(** What [emit] itself invokes: a prefix of the snapshot taken when it was
    called, all of it unless a listener threw. *)
Lemma emit_invoked code n k payload s o s' :
  valid_key k →
  emit code n k payload s = Some (o, s') →
  ∃ ws1 ws2,
    subscribers_of s k = ws1 ++ ws2 ∧
    invoked_by s s' = ws1 ∧
    c_payload <$> direct (depth s) (new_calls s s') = (λ _, payload) <$> ws1 ∧
    (is_normal o = true → ws2 = []) ∧
    (is_normal o = false → ws1 ≠ []).
Proof.
  intros Hk H. unfold emit in H.
  apply emit_level_steps in H as (tr & ws1 & ws2 & Hs & Hsub & Hdir & Hn & Ht);
    [| apply run_steps | done].
  exists ws1, ws2. unfold invoked_by.
  rewrite (steps_new_calls _ _ _ Hs), Hdir, <- !list_fmap_compose.
  split; [done |]. split.
  { clear. induction ws1 as [|a l IH]; [done |]. rewrite fmap_cons. simpl. by f_equal. }
  split; [| done].
  clear. induction ws1 as [|a l IH]; [done |]. rewrite !fmap_cons. simpl. by f_equal.
Qed.

Lemma emit_empty code n k payload s :
  valid_key k →
  subscribers_of s k = [] →
  emit code n k payload s =
    Some (Normal RUndefined, with_console (λ c, c ++ [LogEntry "emit" k payload]) s).
Proof.
  intros Hk Hs. unfold emit. rewrite emit_level_valid by done. by rewrite Hs.
Qed.



(** ** More nesting changes no result

    [None] only ever means that the bound on nested listener calls was too
    small: a result obtained with some bound is obtained with every larger
    one. *)

Section Level_mono.

Variable code : nat → value → prog.
Variables run_body run_body' : prog → emitter → option (outcome value * emitter).

Hypothesis body_mono : ∀ p s r, run_body p s = Some r → run_body' p s = Some r.

Lemma call_wrapped_mono w payload s r :
  call_wrapped code run_body w payload s = Some r →
  call_wrapped code run_body' w payload s = Some r.
Proof.
  unfold call_wrapped.
  destruct (run_body _ _) as [r1|] eqn:E; [| done].
  by rewrite (body_mono _ _ _ E).
Qed.

Lemma forEach_mono ws payload s r :
  forEach code run_body ws payload s = Some r →
  forEach code run_body' ws payload s = Some r.
Proof.
  revert s. induction ws as [|w ws IH]; simpl; intros s; [done |].
  destruct (call_wrapped code run_body w payload s) as [r1|] eqn:E; [| done].
  rewrite (call_wrapped_mono _ _ _ _ E).
  destruct r1 as [[res|e] s1]; [apply IH | done].
Qed.

Lemma exec_level_mono c s r :
  exec_level code run_body c s = Some r →
  exec_level code run_body' c s = Some r.
Proof.
  destruct c; simpl; try done.
  unfold emit_level. destruct (assertEventName eventName s) as [[[]|e] s1]; [| done].
  apply forEach_mono.
Qed.

Lemma run_level_mono p s r :
  run_level code run_body p s = Some r →
  run_level code run_body' p s = Some r.
Proof.
  revert s. induction p as [v | e | c k IH]; simpl; intros s; try done.
  destruct (exec_level code run_body c s) as [[r1 s1]|] eqn:E; [| done].
  rewrite (exec_level_mono _ _ _ E). apply IH.
Qed.

End Level_mono.

Lemma run_S code n p s r :
  run code n p s = Some r → run code (S n) p s = Some r.
Proof.
  revert p s r. induction n as [|n IH]; intros p s r; [done |].
  change (run_level code (run code n) p s = Some r →
          run_level code (run code (S n)) p s = Some r).
  apply run_level_mono. exact IH.
Qed.

Lemma run_mono code n m p s r :
  n ≤ m → run code n p s = Some r → run code m p s = Some r.
Proof. induction 1; auto using run_S. Qed.

Lemma emit_mono code n m k payload s r :
  n ≤ m → emit code n k payload s = Some r → emit code m k payload s = Some r.
Proof.
  intros Hnm. unfold emit.
  apply (exec_level_mono code _ _ (λ p s r, run_mono code n m p s r Hnm)
           (Emit k payload)).
Qed.

Lemma after_on_wf k l s : wf s → wf (after (on k l) s).
Proof. apply on_wf. Qed.

Lemma valid_key_str x : valid_key (VStr x).
Proof. by left. Qed.

(** To exhibit the state a call ends in, it is enough to know how the call
    ends and what holds of the state it computes. *)
Lemma with_final {A} (r : option (outcome A * emitter)) o d (P : emitter → Prop) :
  fst <$> r = Some o → P (final r d) → ∃ s, r = Some (o, s) ∧ P s.
Proof. destruct r as [[o' s]|]; simpl; [| done]. intros [= ->] HP. eauto. Qed.

Lemma with_after {A} (m : M A) s o (P : emitter → Prop) :
  (m s).1 = o → P (after m s) → ∃ s', m s = (o, s') ∧ P s'.
Proof. unfold after. destruct (m s) as [o' s']; simpl. intros -> HP. eauto. Qed.

Lemma pair_after {A} (m : M A) s o : (m s).1 = o → m s = (o, after m s).
Proof. unfold after. destruct (m s) as [o' s']; simpl. by intros ->. Qed.

(** ** After a successful [off] *)

Lemma off_state_subscribers k f i w s :
  eventsMap s !! k = Some i →
  subscribers_of (off_state k f i w s) k = Set_delete w (subscribers_of s k).
Proof.
  intros Hi. unfold subscribers_of at 2. rewrite Hi.
  unfold subscribers_of, off_state. simpl.
  destruct (length (Set_delete w (set_contents s i)) =? 0) eqn:El.
  - rewrite lookup_delete_eq. apply Nat.eqb_eq in El.
    by apply nil_length_inv in El.
  - rewrite Hi. unfold set_contents. simpl. rewrite lookup_alter_eq.
    destruct (sets s !! i); reflexivity.
Qed.

Lemma off_state_events k f i w s :
  eventsMap s !! k = Some i →
  eventsMap (off_state k f i w s) !! k =
    match Set_delete w (subscribers_of s k) with
    | [] => None
    | _ :: _ => Some i
    end.
Proof.
  intros Hi. unfold subscribers_of. rewrite Hi. unfold off_state. simpl.
  destruct (Set_delete w (set_contents s i)) as [|x l]; simpl.
  - apply lookup_delete_eq.
  - exact Hi.
Qed.

(** * The claims *)




(** C2.  For a valid key [k], the wrappers that [emit(k, payload)] invokes
    are taken from the snapshot of [k]'s registration set made before the
    first listener runs: whatever the listeners subscribe or unsubscribe
    meanwhile, the wrappers invoked are a prefix of that snapshot, the whole
    of it when [emit] returns, and none of them was registered during the
    dispatch. *)
Theorem C2_dispatch_over_snapshot code n k payload s o s' :
  wf s →
  valid_key k →
  emit code n k payload s = Some (o, s') →
  invoked_by s s' `prefix_of` subscribers_of s k ∧
  (is_normal o = true → invoked_by s s' = subscribers_of s k) ∧
  Forall (λ w, w_id w < next_wrapper s) (invoked_by s s').
Proof.
  intros Hwf Hk H.
  apply emit_invoked in H as (ws1 & ws2 & Hs & Hi & _ & Hn & _); [| done].
  destruct (wf_subscribers s k Hwf) as (_ & Hb & _).
  rewrite Hi, Hs in *. split; [by exists ws2 |]. split.
  - intros Ho. by rewrite (Hn Ho), app_nil_r.
  - by apply Forall_app in Hb as [Hb _].
Qed.

(** Listener 2 runs first, unsubscribes listener 0 and subscribes listener
    3; listener 0 is invoked all the same and listener 3 is not, although
    the registration set now holds listeners 2 and 3. *)
Lemma C2_witness :
  wf ex_mutating ∧ valid_key (VStr "a") ∧
  ∃ s', emit ex_code 2 (VStr "a") VNull ex_mutating = Some (Normal RUndefined, s') ∧
        subscribers_of s' (VStr "a") =
          [Wrapped 0 (VStr "a") 2; Wrapped 2 (VStr "a") 3] ∧
        invoked_by ex_mutating s' =
          [Wrapped 0 (VStr "a") 2; Wrapped 1 (VStr "a") 0].
Proof.
  assert (Hwf : wf ex_mutating) by (do 2 apply after_on_wf; apply wf_new).
  split; [exact Hwf |]. split; [apply valid_key_str |].
  destruct (with_final (emit ex_code 2 (VStr "a") VNull ex_mutating)
              (Normal RUndefined) ex_new
              (λ s', subscribers_of s' (VStr "a") =
                       [Wrapped 0 (VStr "a") 2; Wrapped 2 (VStr "a") 3]))
    as (s' & He & Hs); [vm_compute; reflexivity | vm_compute; reflexivity |].
  exists s'. split; [exact He |]. split; [exact Hs |].
  rewrite (proj1 (proj2 (C2_dispatch_over_snapshot ex_code 2 (VStr "a") VNull
                           ex_mutating (Normal RUndefined) s' Hwf
                           (valid_key_str "a") He)) eq_refl).
  vm_compute. reflexivity.
Defined.

(** C3 (not met by the code).  [on] never calls
    [assertEventName]: with the key [null], which is neither a string nor a
    number nor a symbol, it returns a token and leaves a registration under
    [null], where [off], [hasListener] and [emit] throw the TypeError. *)
Theorem C3_on_accepts_invalid_key :
  ¬ valid_key VNull ∧
  on VNull (VFun 0) ex_new =
    (Normal (Token VNull 0 0 (Wrapped 0 VNull 0)), after (on VNull (VFun 0)) ex_new) ∧
  subscribers_of (after (on VNull (VFun 0)) ex_new) VNull = [Wrapped 0 VNull 0] ∧
  listenersMap (after (on VNull (VFun 0)) ex_new) !! 0 = Some (Wrapped 0 VNull 0) ∧
  off VNull (VFun 0) ex_new = (Throw InvalidKeyType, ex_new) ∧
  hasListener VNull (VFun 0) ex_new = (Throw InvalidKeyType, ex_new) ∧
  emit ex_code 1 VNull VNull ex_new = Some (Throw InvalidKeyType, ex_new).
Proof.
  split.
  { unfold valid_key. simpl. intros [H | [H | H]]; discriminate. }
  repeat split; vm_compute; reflexivity.
Qed.

(** C4 (not met by the code).  The [off] of a token deletes the
    wrapper from the [Set] and leaves the key in [eventsMap]: after
    [on("a", f).off()] the key ["a"] is mapped to an empty [Set], where
    [emitter.off("a", f)] would have deleted the key. *)
Theorem C4_token_off_leaves_empty_set :
  ∃ s, run ex_code 1 ex_subscribe_then_token_off ex_new = Some (Normal VUndefined, s) ∧
       reachable ex_code s ∧
       eventsMap s !! VStr "a" = Some 0 ∧
       sets s !! 0 = Some [] ∧
       eventsMap (after (off (VStr "a") (VFun 0))
                    (after (on (VStr "a") (VFun 0)) ex_new)) !! VStr "a" = None.
Proof.
  destruct (with_final (run ex_code 1 ex_subscribe_then_token_off ex_new)
              (Normal VUndefined) ex_new
              (λ s, eventsMap s !! VStr "a" = Some 0 ∧ sets s !! 0 = Some []))
    as (s & Hrun & H1 & H2);
    [vm_compute; reflexivity | split; vm_compute; reflexivity |].
  exists s. split; [exact Hrun |]. split.
  { by exists None, 1, ex_subscribe_then_token_off, (Normal VUndefined). }
  split; [exact H1 |]. split; [exact H2 |].
  vm_compute. reflexivity.
Qed.



(** C6.  For a valid key [k] and a function [f], [hasListener(k, f)]
    returns whether [f] has an entry in [listenersMap], whatever [k] is: it
    is true exactly when there is one, and after [on(k1, f)] it is true for
    every valid key. *)
Theorem C6_hasListener_ignores_key k f s :
  valid_key k →
  hasListener k (VFun f) s = (Normal (has_key (listenersMap s) f), s) ∧
  (hasListener k (VFun f) s = (Normal true, s) ↔ is_Some (listenersMap s !! f)) ∧
  (∀ k1, hasListener k (VFun f) (after (on k1 (VFun f)) s) =
           (Normal true, after (on k1 (VFun f)) s)).
Proof.
  intros Hk. split; [by apply hasListener_spec |]. split.
  - rewrite hasListener_spec by done. rewrite <- has_key_true.
    split; [congruence | by intros ->].
  - intros k1. rewrite hasListener_spec by done.
    unfold after. rewrite on_spec. simpl.
    unfold has_key. by rewrite lookup_insert_eq.
Qed.

Lemma C6_witness :
  valid_key (VStr "b") ∧
  hasListener (VStr "b") (VFun 0) (after (on (VStr "a") (VFun 0)) ex_new) =
    (Normal true, after (on (VStr "a") (VFun 0)) ex_new) ∧
  subscribers_of (after (on (VStr "a") (VFun 0)) ex_new) (VStr "b") = [].
Proof.
  split; [apply valid_key_str |]. split.
  - apply (C6_hasListener_ignores_key (VStr "b") 0 ex_new (valid_key_str "b")).
  - vm_compute. reflexivity.
Defined.

(** C7 (amended).  For a valid key [k] and a function [f]: after
    [on(k, f)], [hasListener(k, f)] is true; the token's [off] then returns
    true and a second call of it returns false; [off(k, f)] returns true,
    and a second [off(k, f)] throws "this event has not been subscribed"
    when [k] had no other registration (the first [off] deleted the key), and
    "this listener has not been listened" when it had. *)
Theorem C7_remove_twice k f s :
  wf s →
  valid_key k →
  let s1 := on_state k f s in
  let t := Token k f (on_set k s) (on_wrapper k f s) in
  on k (VFun f) s = (Normal t, s1) ∧
  hasListener k (VFun f) s1 = (Normal true, s1) ∧
  (∃ s2, token_off t s1 = (Normal true, s2) ∧
         token_off t s2 = (Normal false, s2)) ∧
  (∃ s3, off k (VFun f) s1 = (Normal true, s3) ∧
         off k (VFun f) s3 =
           (Throw (match subscribers_of s k with
                   | [] => UnknownKey
                   | _ :: _ => UnknownListener
                   end), s3)).
Proof.
  intros Hwf Hk s1 t.
  assert (Hl : listenersMap s1 !! f = Some (on_wrapper k f s)).
  { simpl. apply lookup_insert_eq. }
  assert (He : eventsMap s1 !! k = Some (on_set k s)).
  { unfold s1. by rewrite on_state_events, decide_True. }
  split; [apply on_spec |]. split; [| split].
  - rewrite hasListener_spec by done. unfold has_key. by rewrite Hl.
  - exists (token_off_state t s1). rewrite !token_off_spec. simpl.
    rewrite !decide_True by done. unfold has_key.
    rewrite lookup_insert_eq, lookup_delete_eq. done.
  - exists (off_state k f (on_set k s) (on_wrapper k f s) s1).
    split; [by apply off_spec_ok |].
    destruct (wf_subscribers s k Hwf) as (_ & Hb & _).
    pose proof (off_state_events k f _ (on_wrapper k f s) s1 He) as He3.
    unfold s1 in He3 at 2. rewrite on_state_subscribers in He3 by done.
    rewrite Set_delete_last in He3 by exact Hb.
    destruct (subscribers_of s k) as [|x l].
    + by apply off_unknown_key.
    + apply off_unknown_listener with (on_set k s); [done | done |].
      simpl. apply lookup_delete_eq.
Qed.

Lemma C7_witness :
  wf ex_two ∧ valid_key (VStr "a") ∧
  ∃ s1 s3, s1 = after (on (VStr "a") (VFun 1)) ex_two ∧
           off (VStr "a") (VFun 1) s1 = (Normal true, s3) ∧
           off (VStr "a") (VFun 1) s3 = (Throw UnknownListener, s3).
Proof.
  assert (Hwf : wf ex_two) by (do 2 apply after_on_wf; apply wf_new).
  split; [exact Hwf |]. split; [apply valid_key_str |].
  destruct (C7_remove_twice (VStr "a") 1 ex_two Hwf (valid_key_str "a"))
    as (Hon & _ & _ & s3 & H1 & H2).
  exists (on_state (VStr "a") 1 ex_two), s3.
  split; [unfold after; by rewrite on_spec |].
  split; [exact H1 | exact H2].
Defined.

(** C7 as stated fails on a new emitter: after [on("a", f)] and
    [off("a", f)], which deletes the key ["a"], the second [off("a", f)]
    throws "this event has not been subscribed". *)
Lemma C7_counterexample :
  ∃ s1 s2,
    on (VStr "a") (VFun 0) ex_new =
      (Normal (Token (VStr "a") 0 0 (Wrapped 0 (VStr "a") 0)), s1) ∧
    off (VStr "a") (VFun 0) s1 = (Normal true, s2) ∧
    off (VStr "a") (VFun 0) s2 = (Throw UnknownKey, s2) ∧
    off (VStr "a") (VFun 0) s2 ≠ (Throw UnknownListener, s2).
Proof.
  exists (after (on (VStr "a") (VFun 0)) ex_new),
    (after (off (VStr "a") (VFun 0)) (after (on (VStr "a") (VFun 0)) ex_new)).
  split; [apply pair_after; vm_compute; reflexivity |].
  split; [apply pair_after; vm_compute; reflexivity |].
  assert (H : off (VStr "a") (VFun 0)
                (after (off (VStr "a") (VFun 0)) (after (on (VStr "a") (VFun 0)) ex_new)) =
              (Throw UnknownKey,
               after (off (VStr "a") (VFun 0)) (after (on (VStr "a") (VFun 0)) ex_new))).
  { apply off_unknown_key; [apply valid_key_str | vm_compute; reflexivity]. }
  split; [exact H |]. rewrite H. discriminate.
Qed.

(** C8 (not met by the code).  [debug] is stored by the
    constructor, [true] unless the option says otherwise, and read nowhere:
    with [{ debug: false }], [on], [emit], the listener call and [off] each
    write their group to the console, as they do on a default emitter. *)
Theorem C8_debug_false_still_logs :
  debug ex_new = true ∧
  debug ex_quiet = false ∧
  console (after (on (VStr "a") (VFun 0)) ex_quiet) =
    [LogEntry "subscribe" (VStr "a") VUndefined] ∧
  (∃ s', emit ex_code 1 (VStr "a") (VNum 5) (after (on (VStr "a") (VFun 0)) ex_quiet) =
           Some (Normal RUndefined, s') ∧
         console s' =
           [LogEntry "subscribe" (VStr "a") VUndefined;
            LogEntry "emit" (VStr "a") (VNum 5);
            LogEntry "call-listener" (VStr "a") VUndefined]) ∧
  console (after (off (VStr "a") (VFun 0)) (after (on (VStr "a") (VFun 0)) ex_quiet)) =
    [LogEntry "subscribe" (VStr "a") VUndefined;
     LogEntry "unsubscribe" (VStr "a") VUndefined] ∧
  console (after (on (VStr "a") (VFun 0)) ex_quiet) =
    console (after (on (VStr "a") (VFun 0)) ex_new).
Proof.
  split; [reflexivity |]. split; [reflexivity |].
  split; [vm_compute; reflexivity |].
  split.
  { apply with_final with (d := ex_new); vm_compute; reflexivity. }
  split; vm_compute; reflexivity.
Qed.



(** C10.  When [off(k, l)] throws, whichever of its four errors, it has
    changed nothing: [eventsMap], [listenersMap] and the rest of the state
    are as before the call. *)
Theorem C10_off_atomic k l s e s' :
  off k l s = (Throw e, s') →
  s' = s ∧
  eventsMap s' = eventsMap s ∧
  listenersMap s' = listenersMap s ∧
  e ∈ [InvalidListenerType; InvalidKeyType; UnknownKey; UnknownListener].
Proof.
  intros H.
  destruct (off_cases k l s) as
    [[_ E] | (f & -> & [[_ E] | [(_ & _ & E) | [(_ & _ & _ & E) | (i & w & _ & _ & _ & E)]]])];
    rewrite E in H; simplify_eq; repeat split; set_solver.
Qed.

Lemma C10_witness :
  off (VObj 0) (VFun 0) ex_two = (Throw InvalidKeyType, ex_two) ∧
  off (VStr "a") VNull ex_two = (Throw InvalidListenerType, ex_two) ∧
  off (VStr "b") (VFun 0) ex_two = (Throw UnknownKey, ex_two) ∧
  off (VStr "a") (VFun 1) ex_two = (Throw UnknownListener, ex_two).
Proof.
  assert (H : ∀ k l e, (off k l ex_two).1 = Throw e →
                       off k l ex_two = (Throw e, ex_two)).
  { intros k l e E. apply pair_after in E. rewrite E. f_equal.
    exact (proj1 (C10_off_atomic k l ex_two e _ E)). }
  repeat split; apply H; vm_compute; reflexivity.
Defined.

(** * Further properties of the methods *)

Lemma off_state_subscribers_ne k f i w s k' :
  wf s →
  eventsMap s !! k = Some i →
  k' ≠ k →
  subscribers_of (off_state k f i w s) k' = subscribers_of s k'.
Proof.
  intros Hwf Hi Hne. unfold subscribers_of.
  assert (He : eventsMap (off_state k f i w s) !! k' = eventsMap s !! k').
  { simpl. destruct (_ =? 0); [| done]. by apply lookup_delete_ne. }
  rewrite He. destruct (eventsMap s !! k') as [j|] eqn:Hj; [| done].
  unfold set_contents. simpl. rewrite lookup_alter_ne; [done |].
  intros <-. apply Hne. eapply wf_inj; eauto.
Qed.

Lemma token_off_state_lookup t s k :
  subscribers_of (token_off_state t s) k =
    match eventsMap s !! k with
    | Some j =>
        if decide (j = t_subscribers t)
        then Set_delete (t_newListener t) (set_contents s j)
        else set_contents s j
    | None => []
    end.
Proof.
  unfold subscribers_of, set_contents. simpl.
  destruct (eventsMap s !! k) as [j|]; [| done].
  case_decide as Hj.
  - subst j. rewrite lookup_alter_eq. by destruct (sets s !! _).
  - by rewrite lookup_alter_ne.
Qed.

Lemma token_off_state_subscribers s k f k' :
  wf s →
  subscribers_of (token_off_state (Token k f (on_set k s) (on_wrapper k f s))
                    (on_state k f s)) k' =
    subscribers_of s k'.
Proof.
  intros Hwf. destruct (wf_subscribers s k Hwf) as (_ & Hb & _).
  rewrite token_off_state_lookup.
  cbn [t_subscribers t_newListener].
  rewrite on_state_events. unfold set_contents.
  case_decide as Hk.
  - subst k'. rewrite decide_True by done.
    rewrite on_state_sets, decide_True by done. simpl.
    by apply Set_delete_last.
  - unfold subscribers_of, set_contents.
    destruct (eventsMap s !! k') as [j|] eqn:Hj; [| done].
    rewrite decide_False.
    + rewrite on_state_sets by done. rewrite decide_False; [done |].
      intros ->. apply Hk. eauto using on_set_fresh.
    + intros ->. apply Hk. eauto using on_set_fresh.
Qed.

(** X1.  [on], [off] and [hasListener] test the listener before anything
    else: with a listener that is not a function they throw "listener must
    be a function" and change nothing, whether or not the key is one that
    [assertEventName] accepts. *)
Theorem X1_listener_checked_first k l s :
  typeof l ≠ TFunction →
  on k l s = (Throw InvalidListenerType, s) ∧
  off k l s = (Throw InvalidListenerType, s) ∧
  hasListener k l s = (Throw InvalidListenerType, s).
Proof.
  intros Hl. split; [by apply on_not_callable |].
  split; [by apply off_not_callable |].
  unfold hasListener, bind, assertListener, throw.
  destruct l; simpl in *; congruence.
Qed.

Lemma X1_witness :
  typeof (VStr "not a function") ≠ TFunction ∧
  on VNull (VStr "not a function") ex_two = (Throw InvalidListenerType, ex_two) ∧
  off VNull (VStr "not a function") ex_two = (Throw InvalidListenerType, ex_two) ∧
  hasListener VNull (VStr "not a function") ex_two =
    (Throw InvalidListenerType, ex_two).
Proof.
  assert (H : typeof (VStr "not a function") ≠ TFunction) by discriminate.
  split; [exact H |].
  exact (X1_listener_checked_first VNull (VStr "not a function") ex_two H).
Defined.

(** X2.  A registration that [on] made under a key that is not a string, a
    symbol or a number can be neither published to nor removed: on that key
    [emit], [off], [hasListener] and the [off] of the very token that [on]
    returned all throw the TypeError of [assertEventName] and leave the
    state, with the registration in it, as it was. *)
Theorem X2_invalid_key_registration_stuck code n k f payload s :
  wf s →
  ¬ valid_key k →
  let s1 := on_state k f s in
  let t := Token k f (on_set k s) (on_wrapper k f s) in
  on k (VFun f) s = (Normal t, s1) ∧
  subscribers_of s1 k = subscribers_of s k ++ [on_wrapper k f s] ∧
  emit code n k payload s1 = Some (Throw InvalidKeyType, s1) ∧
  off k (VFun f) s1 = (Throw InvalidKeyType, s1) ∧
  hasListener k (VFun f) s1 = (Throw InvalidKeyType, s1) ∧
  token_off t s1 = (Throw InvalidKeyType, s1).
Proof.
  intros Hwf Hk s1 t.
  split; [apply on_spec |]. split; [by apply on_state_subscribers |].
  split; [by apply emit_level_invalid |].
  split; [by apply off_invalid_key |].
  split.
  - unfold hasListener, bind, assertListener, ret.
    by rewrite (assertEventName_invalid k s1 Hk).
  - rewrite token_off_spec. by rewrite decide_False.
Qed.

Lemma X2_witness :
  wf ex_new ∧ ¬ valid_key (VObj 0) ∧
  ∃ t s1, on (VObj 0) (VFun 0) ex_new = (Normal t, s1) ∧
          subscribers_of s1 (VObj 0) = [Wrapped 0 (VObj 0) 0] ∧
          token_off t s1 = (Throw InvalidKeyType, s1) ∧
          emit ex_code 1 (VObj 0) VNull s1 = Some (Throw InvalidKeyType, s1).
Proof.
  assert (Hk : ¬ valid_key (VObj 0)).
  { unfold valid_key. simpl. intros [H | [H | H]]; discriminate. }
  split; [apply wf_new |]. split; [exact Hk |].
  destruct (X2_invalid_key_registration_stuck ex_code 1 (VObj 0) 0 VNull ex_new
              (wf_new None) Hk) as (Hon & Hs & He & _ & _ & Ht).
  eexists _, _. split; [exact Hon |].
  split; [rewrite Hs; vm_compute; reflexivity |].
  split; [exact Ht | exact He].
Defined.

(** X3.  In every state that a client can reach from a new emitter, by any
    calls and with any listeners, the registration set of each key lists
    wrappers made by [on] for that very key, in the order of their
    registration and none twice, and two keys never share a [Set]. *)
Theorem X3_reachable_invariant code s :
  reachable code s →
  (∀ k, StronglySorted lt (w_id <$> subscribers_of s k) ∧
        NoDup (subscribers_of s k) ∧
        Forall (λ w, w_event w = k) (subscribers_of s k) ∧
        Forall (λ w, w_id w < next_wrapper s) (subscribers_of s k)) ∧
  (∀ k1 k2 i, eventsMap s !! k1 = Some i → eventsMap s !! k2 = Some i → k1 = k2).
Proof.
  intros Hr. apply reachable_wf in Hr. split.
  - intros k. destruct (wf_subscribers s k Hr) as (Hs & Hb & Hk).
    auto using sorted_NoDup.
  - apply (wf_inj s Hr).
Qed.

Lemma X3_witness :
  ∃ s, run ex_code 2 ex_client ex_new = Some (Normal VUndefined, s) ∧
       subscribers_of s (VStr "b") = [Wrapped 1 (VStr "b") 3] ∧
       NoDup (subscribers_of s (VStr "b")).
Proof.
  destruct (with_final (run ex_code 2 ex_client ex_new) (Normal VUndefined) ex_new
              (λ s, subscribers_of s (VStr "b") = [Wrapped 1 (VStr "b") 3]))
    as (s & Hrun & Hs); [vm_compute; reflexivity | vm_compute; reflexivity |].
  exists s. split; [exact Hrun |]. split; [exact Hs |].
  refine (proj1 (proj2 (proj1 (X3_reachable_invariant ex_code s _) (VStr "b")))).
  by exists None, 2, ex_client, (Normal VUndefined).
Defined.

(** ** Publishing to listeners that only compute *)

Lemma same_registrations_refl s : same_registrations s s.
Proof. by repeat split. Qed.

Lemma same_registrations_trans s1 s2 s3 :
  same_registrations s1 s2 → same_registrations s2 s3 → same_registrations s1 s3.
Proof.
  unfold same_registrations.
  intros (?&?&?&?&?&?&?) (?&?&?&?&?&?&?). repeat split; congruence.
Qed.

Lemma call_wrapped_returns code n w payload r s :
  code (w_listener w) payload = Return r →
  call_wrapped code (run code (S n)) w payload s =
    Some (Normal r,
          with_console (λ c, c ++ [LogEntry "call-listener" (w_event w) r])
            (with_calls (λ c, c ++ [CallRecord (depth s) w payload]) s)).
Proof.
  intros H. unfold call_wrapped. rewrite H. simpl. by destruct s.
Qed.

Lemma call_wrapped_raises code n w payload e s :
  code (w_listener w) payload = Raise e →
  call_wrapped code (run code (S n)) w payload s =
    Some (Throw e, with_calls (λ c, c ++ [CallRecord (depth s) w payload]) s).
Proof.
  intros H. unfold call_wrapped. rewrite H. simpl. by destruct s.
Qed.

Lemma forEach_returns code n (r : wrapped → value) ws ws' e payload s :
  Forall (λ w, code (w_listener w) payload = Return (r w)) ws →
  match ws' with
  | [] => True
  | w0 :: _ => code (w_listener w0) payload = Raise e
  end →
  ∃ s',
    forEach code (run code (S n)) (ws ++ ws') payload s =
      Some (match ws' with [] => Normal RUndefined | _ :: _ => Throw e end, s') ∧
    same_registrations s s' ∧
    console s' =
      console s ++ ((λ w, LogEntry "call-listener" (w_event w) (r w)) <$> ws) ∧
    calls s' =
      calls s ++ ((λ w, CallRecord (depth s) w payload) <$> (ws ++ take 1 ws')).
Proof.
  intros Hws Hw0. revert s. induction Hws as [|w ws Hw _ IH]; intros s.
  - destruct ws' as [|w0 ws2]; cbn [app forEach].
    + exists s. simpl. rewrite !app_nil_r. auto using same_registrations_refl.
    + rewrite (call_wrapped_raises _ _ _ _ _ _ Hw0).
      eexists. split; [reflexivity |]. simpl. rewrite app_nil_r.
      split; [by repeat split | done].
  - cbn [app forEach]. rewrite (call_wrapped_returns _ _ _ _ _ _ Hw).
    destruct (IH (with_console (λ c, c ++ [LogEntry "call-listener" (w_event w) (r w)])
                    (with_calls (λ c, c ++ [CallRecord (depth s) w payload]) s)))
      as (s' & -> & Hsame & Hc & Hr).
    exists s'. split; [reflexivity |]. simpl in *.
    rewrite Hc, Hr, <- !app_assoc. split; [| done].
    destruct Hsame as (?&?&?&?&?&?&?). by repeat split.
Qed.

(** X4.  When every listener registered under a valid key [k] returns
    without calling the emitter, [emit(k, payload)] returns, leaves every
    registration as it was, calls the listeners in order with the payload
    and writes to the console its "emit" group followed by one
    "call-listener" group per listener, holding what the listener
    returned. *)
Theorem X4_emit_with_returning_listeners code n (r : wrapped → value) k payload s :
  valid_key k →
  Forall (λ w, code (w_listener w) payload = Return (r w)) (subscribers_of s k) →
  ∃ s',
    emit code (S n) k payload s = Some (Normal RUndefined, s') ∧
    same_registrations s s' ∧
    console s' =
      console s ++ LogEntry "emit" k payload ::
        ((λ w, LogEntry "call-listener" (w_event w) (r w)) <$> subscribers_of s k) ∧
    calls s' =
      calls s ++ ((λ w, CallRecord (depth s) w payload) <$> subscribers_of s k).
Proof.
  intros Hk Hws. unfold emit. rewrite emit_level_valid by done.
  destruct (forEach_returns code n r (subscribers_of s k) [] InvalidKeyType payload
              (with_console (λ c, c ++ [LogEntry "emit" k payload]) s) Hws I)
    as (s' & He & Hsame & Hc & Hr).
  rewrite app_nil_r in He, Hr.
  exists s'. split; [exact He |]. simpl in *.
  rewrite Hc, Hr, <- app_assoc. split; [| done].
  destruct Hsame as (?&?&?&?&?&?&?). by repeat split.
Qed.

Lemma X4_witness :
  valid_key (VStr "a") ∧
  ∃ s', emit ex_code 1 (VStr "a") (VNum 5) ex_two = Some (Normal RUndefined, s') ∧
        console s' =
          console ex_two ++
            [LogEntry "emit" (VStr "a") (VNum 5);
             LogEntry "call-listener" (VStr "a") VUndefined;
             LogEntry "call-listener" (VStr "a") (VNum 1)] ∧
        eventsMap s' = eventsMap ex_two.
Proof.
  split; [apply valid_key_str |].
  destruct (X4_emit_with_returning_listeners ex_code 0
              (λ w, match w_listener w with 0 => VUndefined | _ => VNum 1 end)
              (VStr "a") (VNum 5) ex_two (valid_key_str "a"))
    as (s' & He & Hsame & Hc & _).
  { vm_compute. repeat constructor. }
  exists s'. split; [exact He |]. split; [| apply Hsame].
  rewrite Hc. vm_compute. reflexivity.
Defined.

(** X5.  When the listeners registered under a valid key [k] return
    without calling the emitter up to one that throws, [emit(k, payload)]
    throws that listener's error; the registrations are as they were, the
    listeners up to the throwing one have been called, and the console
    holds the "emit" group and a "call-listener" group for each listener
    that returned, none for the one that threw. *)
Theorem X5_emit_with_throwing_listener code n (r : wrapped → value) k payload s
    ws w0 ws2 e :
  valid_key k →
  subscribers_of s k = ws ++ w0 :: ws2 →
  Forall (λ w, code (w_listener w) payload = Return (r w)) ws →
  code (w_listener w0) payload = Raise e →
  ∃ s',
    emit code (S n) k payload s = Some (Throw e, s') ∧
    same_registrations s s' ∧
    console s' =
      console s ++ LogEntry "emit" k payload ::
        ((λ w, LogEntry "call-listener" (w_event w) (r w)) <$> ws) ∧
    calls s' =
      calls s ++ ((λ w, CallRecord (depth s) w payload) <$> (ws ++ [w0])).
Proof.
  intros Hk Hsub Hws Hw0. unfold emit. rewrite emit_level_valid by done.
  rewrite Hsub.
  destruct (forEach_returns code n r ws (w0 :: ws2) e payload
              (with_console (λ c, c ++ [LogEntry "emit" k payload]) s) Hws Hw0)
    as (s' & He & Hsame & Hc & Hr).
  exists s'. split; [exact He |]. simpl in *.
  rewrite Hc, Hr, <- app_assoc. split; [| done].
  destruct Hsame as (?&?&?&?&?&?&?). by repeat split.
Qed.

Lemma X5_witness :
  valid_key (VStr "a") ∧
  ∃ s', emit ex_code 1 (VStr "a") (VNum 5) ex_throwing =
          Some (Throw (UserError (VStr "boom")), s') ∧
        console s' = console ex_throwing ++ [LogEntry "emit" (VStr "a") (VNum 5)] ∧
        sets s' = sets ex_throwing.
Proof.
  split; [apply valid_key_str |].
  destruct (X5_emit_with_throwing_listener ex_code 0 (λ _, VUndefined)
              (VStr "a") (VNum 5) ex_throwing
              [] (Wrapped 0 (VStr "a") 1) [Wrapped 1 (VStr "a") 0]
              (UserError (VStr "boom")) (valid_key_str "a"))
    as (s' & He & Hsame & Hc & _).
  { vm_compute. reflexivity. }
  { constructor. }
  { reflexivity. }
  exists s'. split; [exact He |]. split; [exact Hc | apply Hsame].
Defined.

(** ** Subscribing and unsubscribing in a row *)

Lemma Set_delete_later w l n :
  Forall (λ x, w_id x < n) l → n ≤ w_id w → Set_delete w l = l.
Proof.
  intros Hl Hn. apply Set_delete_absent.
  eapply Forall_impl; [exact Hl |]. simpl. lia.
Qed.

Lemma on_state_subscribers_bound s k f k' :
  wf s →
  Forall (λ x, w_id x < S (next_wrapper s)) (subscribers_of (on_state k f s) k').
Proof.
  intros Hwf.
  destruct (wf_subscribers (on_state k f s) k' (wf_on s k f Hwf)) as (_ & Hb & _).
  exact Hb.
Qed.

(** X6.  On a valid key, [on(k, f)] followed by [off(k, f)], for a listener
    that had no entry in [listenersMap], is a round trip: [off] returns
    true, every key has the registrations it had, [listenersMap] is what it
    was, and [k] is in [eventsMap] afterwards exactly when it has
    registrations. *)
Theorem X6_on_off_round_trip k f s :
  wf s →
  valid_key k →
  listenersMap s !! f = None →
  ∃ t s1 s2,
    on k (VFun f) s = (Normal t, s1) ∧
    off k (VFun f) s1 = (Normal true, s2) ∧
    (∀ k', subscribers_of s2 k' = subscribers_of s k') ∧
    listenersMap s2 = listenersMap s ∧
    (is_Some (eventsMap s2 !! k) ↔ subscribers_of s k ≠ []).
Proof.
  intros Hwf Hk Hf.
  set (w := on_wrapper k f s). set (s1 := on_state k f s).
  assert (He : eventsMap s1 !! k = Some (on_set k s)).
  { unfold s1. by rewrite on_state_events, decide_True. }
  assert (Hl : listenersMap s1 !! f = Some w) by apply lookup_insert_eq.
  destruct (wf_subscribers s k Hwf) as (_ & Hb & _).
  assert (Hd : Set_delete w (subscribers_of s1 k) = subscribers_of s k).
  { unfold s1. rewrite on_state_subscribers by done. by apply Set_delete_last. }
  exists (Token k f (on_set k s) w), s1, (off_state k f (on_set k s) w s1).
  split; [apply on_spec |]. split; [by apply off_spec_ok |]. split; [| split].
  - intros k'. destruct (decide (k' = k)) as [-> | Hne].
    + by rewrite off_state_subscribers.
    + rewrite off_state_subscribers_ne by (done || by apply wf_on).
      by apply on_state_subscribers_ne.
  - simpl. by apply delete_insert_id.
  - rewrite off_state_events by done. rewrite Hd.
    destruct (subscribers_of s k); split; intros H; done.
Qed.

Lemma X6_witness :
  wf ex_two ∧ valid_key (VStr "b") ∧ listenersMap ex_two !! 1 = None ∧
  ∃ t s1 s2,
    on (VStr "b") (VFun 1) ex_two = (Normal t, s1) ∧
    off (VStr "b") (VFun 1) s1 = (Normal true, s2) ∧
    subscribers_of s2 (VStr "a") = subscribers_of ex_two (VStr "a") ∧
    eventsMap s2 !! VStr "b" = None.
Proof.
  assert (Hwf : wf ex_two) by (do 2 apply after_on_wf; apply wf_new).
  assert (Hf : listenersMap ex_two !! 1 = None) by (vm_compute; reflexivity).
  split; [exact Hwf |]. split; [apply valid_key_str |]. split; [exact Hf |].
  destruct (X6_on_off_round_trip (VStr "b") 1 ex_two Hwf (valid_key_str "b") Hf)
    as (t & s1 & s2 & Hon & Hoff & Hs & _ & He).
  exists t, s1, s2. split; [exact Hon |]. split; [exact Hoff |].
  split; [apply Hs |].
  destruct (eventsMap s2 !! VStr "b") as [i|] eqn:E; [| reflexivity].
  exfalso. apply (proj1 He); [eauto |]. vm_compute. reflexivity.
Defined.

(** X7.  On a valid key, [on(k, f)] followed by the [off] of the token it
    returned, for a listener that had no entry in [listenersMap], gives
    back the registrations of every key and [listenersMap]; unlike
    [off(k, f)] it always leaves [k] in [eventsMap]. *)
Theorem X7_on_token_off_round_trip k f s :
  wf s →
  valid_key k →
  listenersMap s !! f = None →
  ∃ t s1 s2,
    on k (VFun f) s = (Normal t, s1) ∧
    token_off t s1 = (Normal true, s2) ∧
    (∀ k', subscribers_of s2 k' = subscribers_of s k') ∧
    listenersMap s2 = listenersMap s ∧
    is_Some (eventsMap s2 !! k).
Proof.
  intros Hwf Hk Hf.
  set (t := Token k f (on_set k s) (on_wrapper k f s)).
  exists t, (on_state k f s), (token_off_state t (on_state k f s)).
  split; [apply on_spec |]. split; [| split; [| split]].
  - rewrite token_off_spec. cbn [t_eventName t_listener t].
    rewrite decide_True by done. unfold has_key.
    change (listenersMap (on_state k f s)) with (<[f := on_wrapper k f s]> (listenersMap s)).
    by rewrite lookup_insert_eq.
  - intros k'. by apply token_off_state_subscribers.
  - simpl. by apply delete_insert_id.
  - change (eventsMap (token_off_state t (on_state k f s)))
      with (eventsMap (on_state k f s)).
    rewrite on_state_events, decide_True by done. eauto.
Qed.

Lemma X7_witness :
  wf ex_new ∧ valid_key (VStr "a") ∧ listenersMap ex_new !! 0 = None ∧
  ∃ t s1 s2,
    on (VStr "a") (VFun 0) ex_new = (Normal t, s1) ∧
    token_off t s1 = (Normal true, s2) ∧
    subscribers_of s2 (VStr "a") = [] ∧
    is_Some (eventsMap s2 !! VStr "a").
Proof.
  split; [apply wf_new |]. split; [apply valid_key_str |].
  split; [reflexivity |].
  destruct (X7_on_token_off_round_trip (VStr "a") 0 ex_new (wf_new None)
              (valid_key_str "a") eq_refl)
    as (t & s1 & s2 & Hon & Hoff & Hs & _ & He).
  exists t, s1, s2. split; [exact Hon |]. split; [exact Hoff |].
  split; [| exact He]. rewrite Hs. reflexivity.
Defined.

(** X8.  A token outlives its registration.  After [on(k, f)], the token's
    [off] and a second [on(k, f)], the first token's [off] returns true
    again, because [hasListener] finds the entry made by the second [on]:
    it deletes that entry and removes nothing from the set.  The second
    registration is then still published to, while the [off] of its own
    token returns false and [off(k, f)] throws "this listener has not been
    listened". *)
Theorem X8_stale_token code k f s :
  wf s →
  valid_key k →
  let t1 := Token k f (on_set k s) (on_wrapper k f s) in
  let s1 := on_state k f s in
  let s2 := token_off_state t1 s1 in
  let t2 := Token k f (on_set k s2) (on_wrapper k f s2) in
  let s3 := on_state k f s2 in
  let s4 := token_off_state t1 s3 in
  on k (VFun f) s = (Normal t1, s1) ∧
  token_off t1 s1 = (Normal true, s2) ∧
  on k (VFun f) s2 = (Normal t2, s3) ∧
  token_off t1 s3 = (Normal true, s4) ∧
  subscribers_of s4 k = subscribers_of s k ++ [on_wrapper k f s2] ∧
  listenersMap s4 !! f = None ∧
  token_off t2 s4 = (Normal false, s4) ∧
  off k (VFun f) s4 = (Throw UnknownListener, s4) ∧
  (∀ n p r s', emit code n k p s4 = Some (Normal r, s') →
     invoked_by s4 s' = subscribers_of s k ++ [on_wrapper k f s2]).
Proof.
  intros Hwf Hk t1 s1 s2 t2 s3 s4.
  assert (Hwf1 : wf s1) by by apply wf_on.
  assert (Hwf2 : wf s2) by by apply wf_token_off.
  assert (Hs2 : subscribers_of s2 k = subscribers_of s k).
  { by apply token_off_state_subscribers. }
  assert (Hs3 : subscribers_of s3 k = subscribers_of s k ++ [on_wrapper k f s2]).
  { unfold s3. rewrite on_state_subscribers by done. by rewrite Hs2. }
  assert (He3 : eventsMap s3 !! k = Some (on_set k s)).
  { unfold s3. rewrite on_state_events, decide_True by done.
    f_equal. unfold on_set at 1.
    change (eventsMap s2) with (eventsMap s1).
    unfold s1. by rewrite on_state_events, decide_True. }
  assert (Hs4 : subscribers_of s4 k = subscribers_of s k ++ [on_wrapper k f s2]).
  { unfold s4. rewrite token_off_state_lookup, He3.
    cbn [t_subscribers t_newListener t1]. rewrite decide_True by done.
    change (set_contents s3 (on_set k s))
      with (match Some (on_set k s) with Some i => set_contents s3 i | None => [] end).
    rewrite <- He3. fold (subscribers_of s3 k). rewrite Hs3.
    apply Set_delete_absent. apply Forall_app. split.
    - destruct (wf_subscribers s k Hwf) as (_ & Hb & _).
      eapply Forall_impl; [exact Hb |]. simpl. lia.
    - repeat constructor. simpl. lia. }
  assert (Hl4 : listenersMap s4 !! f = None) by apply lookup_delete_eq.
  split; [apply on_spec |]. split.
  { rewrite token_off_spec. cbn [t_eventName t_listener t1].
    rewrite decide_True by done. unfold has_key.
    change (listenersMap s1) with (<[f := on_wrapper k f s]> (listenersMap s)).
    by rewrite lookup_insert_eq. }
  split; [apply on_spec |]. split.
  { rewrite token_off_spec. cbn [t_eventName t_listener t1].
    rewrite decide_True by done. unfold has_key.
    change (listenersMap s3) with (<[f := on_wrapper k f s2]> (listenersMap s2)).
    by rewrite lookup_insert_eq. }
  split; [exact Hs4 |]. split; [exact Hl4 |]. split.
  { rewrite token_off_spec. cbn [t_eventName t_listener t2].
    rewrite decide_True by done. unfold has_key. by rewrite Hl4. }
  split.
  { apply off_unknown_listener with (on_set k s); [done | exact He3 | exact Hl4]. }
  intros n p r s' H.
  apply emit_invoked in H as (ws1 & ws2 & Hs & Hi & _ & Hn & _); [| done].
  rewrite (Hn eq_refl), app_nil_r in Hs. congruence.
Qed.

Lemma X8_witness :
  wf ex_new ∧ valid_key (VStr "a") ∧
  ∃ t1 s1 s2 t2 s3 s4 s5,
    on (VStr "a") (VFun 0) ex_new = (Normal t1, s1) ∧
    token_off t1 s1 = (Normal true, s2) ∧
    on (VStr "a") (VFun 0) s2 = (Normal t2, s3) ∧
    token_off t1 s3 = (Normal true, s4) ∧
    token_off t2 s4 = (Normal false, s4) ∧
    emit ex_code 1 (VStr "a") VNull s4 = Some (Normal RUndefined, s5) ∧
    invoked_by s4 s5 = [Wrapped 1 (VStr "a") 0].
Proof.
  split; [apply wf_new |]. split; [apply valid_key_str |].
  destruct (X8_stale_token ex_code (VStr "a") 0 ex_new (wf_new None)
              (valid_key_str "a"))
    as (H1 & H2 & H3 & H4 & _ & _ & H5 & _ & H6).
  match type of H5 with
  | token_off _ ?s4 = _ =>
      destruct (with_final (emit ex_code 1 (VStr "a") VNull s4)
                  (Normal RUndefined) ex_new (λ _, True)) as (s5 & He & _);
        [vm_compute; reflexivity | exact I |]
  end.
  eexists _, _, _, _, _, _, s5.
  split; [exact H1 |]. split; [exact H2 |]. split; [exact H3 |].
  split; [exact H4 |]. split; [exact H5 |].
  split; [exact He |].
  rewrite (H6 1 VNull RUndefined s5 He).
  vm_compute. reflexivity.
Defined.

(** X9.  [listenersMap] holds one wrapper per listener.  After [on(k1, f)]
    and [on(k2, f)] on two valid keys, [off(k1, f)] returns true and
    removes nothing: it deletes the wrapper made for [k2] from the set of
    [k1], where it is not, and forgets the listener.  Both registrations
    stay, and [off] on either key then throws "this listener has not been
    listened". *)
Theorem X9_resubscribe_other_key k1 k2 f s :
  wf s →
  valid_key k1 →
  valid_key k2 →
  k1 ≠ k2 →
  let s1 := on_state k1 f s in
  let s2 := on_state k2 f s1 in
  on k1 (VFun f) s = (Normal (Token k1 f (on_set k1 s) (on_wrapper k1 f s)), s1) ∧
  on k2 (VFun f) s1 = (Normal (Token k2 f (on_set k2 s1) (on_wrapper k2 f s1)), s2) ∧
  ∃ s3,
    off k1 (VFun f) s2 = (Normal true, s3) ∧
    subscribers_of s3 k1 = subscribers_of s k1 ++ [on_wrapper k1 f s] ∧
    subscribers_of s3 k2 = subscribers_of s k2 ++ [on_wrapper k2 f s1] ∧
    hasListener k2 (VFun f) s3 = (Normal false, s3) ∧
    off k1 (VFun f) s3 = (Throw UnknownListener, s3) ∧
    off k2 (VFun f) s3 = (Throw UnknownListener, s3).
Proof.
  intros Hwf Hk1 Hk2 Hne s1 s2.
  set (w1 := on_wrapper k1 f s). set (w2 := on_wrapper k2 f s1).
  assert (Hwf1 : wf s1) by by apply wf_on.
  assert (Hwf2 : wf s2) by by apply wf_on.
  assert (Hs21 : subscribers_of s2 k1 = subscribers_of s k1 ++ [w1]).
  { unfold s2. rewrite on_state_subscribers_ne by done.
    by apply on_state_subscribers. }
  assert (Hs22 : subscribers_of s2 k2 = subscribers_of s k2 ++ [w2]).
  { unfold s2. rewrite on_state_subscribers by done.
    unfold s1 at 1. by rewrite on_state_subscribers_ne by done. }
  assert (He21 : eventsMap s2 !! k1 = Some (on_set k1 s)).
  { unfold s2. rewrite on_state_events, decide_False by done.
    unfold s1. by rewrite on_state_events, decide_True. }
  assert (He22 : eventsMap s2 !! k2 = Some (on_set k2 s1)).
  { unfold s2. by rewrite on_state_events, decide_True. }
  assert (Hl2 : listenersMap s2 !! f = Some w2) by apply lookup_insert_eq.
  set (s3 := off_state k1 f (on_set k1 s) w2 s2).
  assert (Hd : Set_delete w2 (subscribers_of s2 k1) = subscribers_of s k1 ++ [w1]).
  { rewrite Hs21.
    apply Set_delete_later with (S (next_wrapper s)); [| simpl; lia].
    rewrite <- Hs21. unfold s2. rewrite on_state_subscribers_ne by done.
    by apply on_state_subscribers_bound. }
  assert (Hs31 : subscribers_of s3 k1 = subscribers_of s k1 ++ [w1]).
  { unfold s3. by rewrite off_state_subscribers. }
  assert (Hl3 : listenersMap s3 !! f = None) by apply lookup_delete_eq.
  assert (He31 : eventsMap s3 !! k1 = Some (on_set k1 s)).
  { unfold s3. rewrite off_state_events by done.
    rewrite Hd. by destruct (subscribers_of s k1). }
  assert (He32 : eventsMap s3 !! k2 = Some (on_set k2 s1)).
  { unfold s3. simpl. destruct (_ =? 0).
    - by rewrite lookup_delete_ne.
    - exact He22. }
  split; [apply on_spec |]. split; [apply on_spec |].
  exists s3. split; [by apply off_spec_ok |]. split; [exact Hs31 |].
  split.
  { unfold s3. rewrite off_state_subscribers_ne by done. exact Hs22. }
  split.
  { rewrite hasListener_spec by done. unfold has_key. by rewrite Hl3. }
  split.
  - by apply off_unknown_listener with (on_set k1 s).
  - by apply off_unknown_listener with (on_set k2 s1).
Qed.

Lemma X9_witness :
  wf ex_new ∧ valid_key (VStr "a") ∧ valid_key (VStr "b") ∧ VStr "a" ≠ VStr "b" ∧
  ∃ s3,
    off (VStr "a") (VFun 0)
      (on_state (VStr "b") 0 (on_state (VStr "a") 0 ex_new)) = (Normal true, s3) ∧
    subscribers_of s3 (VStr "a") = [Wrapped 0 (VStr "a") 0] ∧
    subscribers_of s3 (VStr "b") = [Wrapped 1 (VStr "b") 0] ∧
    off (VStr "b") (VFun 0) s3 = (Throw UnknownListener, s3).
Proof.
  assert (Hne : VStr "a" ≠ VStr "b") by discriminate.
  split; [apply wf_new |]. split; [apply valid_key_str |].
  split; [apply valid_key_str |]. split; [exact Hne |].
  destruct (X9_resubscribe_other_key (VStr "a") (VStr "b") 0 ex_new (wf_new None)
              (valid_key_str "a") (valid_key_str "b") Hne)
    as (_ & _ & s3 & Hoff & Ha & Hb & _ & _ & Hoff').
  exists s3. split; [exact Hoff |].
  split; [rewrite Ha; vm_compute; reflexivity |].
  split; [rewrite Hb; vm_compute; reflexivity | exact Hoff'].
Defined.

(** ** A new emitter, and keys that do not interfere *)

(** X10.  On a new emitter, whatever the options, no key has a
    registration: for a valid key and a function, [hasListener] returns
    false, [off] throws "this event has not been subscribed", and [emit]
    returns after its "emit" group without calling any listener.  [debug]
    is false only when the options say so. *)
Theorem X10_new_emitter code n options k f payload :
  valid_key k →
  hasListener k (VFun f) (new_emitter options) = (Normal false, new_emitter options) ∧
  off k (VFun f) (new_emitter options) = (Throw UnknownKey, new_emitter options) ∧
  emit code n k payload (new_emitter options) =
    Some (Normal RUndefined,
          with_console (λ _, [LogEntry "emit" k payload]) (new_emitter options)) ∧
  (debug (new_emitter options) = false ↔
     ∃ o, options = Some o ∧ opt_debug o = Some false).
Proof.
  intros Hk. split; [by rewrite hasListener_spec |].
  split; [by apply off_unknown_key |].
  split; [by rewrite emit_empty |].
  destruct options as [[[[]|]]|]; simpl; split; try done; try (by eauto).
  - intros (o & [= <-] & H). done.
  - intros (o & [= <-] & H). done.
  - intros (o & H & _). done.
Qed.

Lemma X10_witness :
  valid_key (VSym 0) ∧
  off (VSym 0) (VFun 0) ex_quiet = (Throw UnknownKey, ex_quiet) ∧
  debug ex_quiet = false.
Proof.
  assert (Hk : valid_key (VSym 0)) by (right; by left).
  split; [exact Hk |].
  destruct (X10_new_emitter ex_code 0 (Some {| opt_debug := Some false |})
              (VSym 0) 0 VNull Hk) as (_ & Hoff & _ & Hd).
  split; [exact Hoff |]. apply Hd. eauto.
Defined.

(** X11.  [hasListener] is a pure lookup: it never changes the state, the
    console included, and it returns a boolean exactly when the listener is
    a function and the key a string, a symbol or a number; a function with
    any other key is answered by the TypeError of [assertEventName]. *)
Theorem X11_hasListener_pure k l s :
  (hasListener k l s).2 = s ∧
  ((∃ b, (hasListener k l s).1 = Normal b) ↔ typeof l = TFunction ∧ valid_key k) ∧
  (typeof l = TFunction → ¬ valid_key k →
     hasListener k l s = (Throw InvalidKeyType, s)).
Proof.
  split; [| split].
  - destruct (hasListener k l s) as [o s'] eqn:E. simpl.
    by apply hasListener_state in E.
  - destruct (decide (typeof l = TFunction)) as [Hl | Hl].
    + destruct l; try discriminate.
      destruct (decide (valid_key k)) as [Hk | Hk].
      * rewrite hasListener_spec by done. simpl. split; eauto.
      * unfold hasListener, bind, assertListener, ret.
        rewrite (assertEventName_invalid k s Hk). simpl.
        split; [by intros [b ?] | tauto].
    + assert (hasListener k l s = (Throw InvalidListenerType, s)) as ->.
      { unfold hasListener, bind, assertListener, throw.
        destruct l; simpl in *; congruence. }
      simpl. split; [by intros [b ?] | tauto].
  - intros Hl Hk. destruct l; try discriminate.
    unfold hasListener, bind, assertListener, ret.
    by rewrite (assertEventName_invalid k s Hk).
Qed.

Lemma X11_witness :
  (hasListener (VObj 0) (VFun 0) ex_two).2 = ex_two ∧
  hasListener (VObj 0) (VFun 0) ex_two = (Throw InvalidKeyType, ex_two).
Proof.
  destruct (X11_hasListener_pure (VObj 0) (VFun 0) ex_two) as (H1 & _ & H3).
  split; [exact H1 |]. apply H3; [reflexivity |].
  unfold valid_key. simpl. intros [H | [H | H]]; discriminate.
Defined.

(** X12.  [on] and [off] on one key leave the registrations of every other
    key as they were, however the call ends. *)
Theorem X12_other_keys_untouched k l s k' :
  wf s →
  k' ≠ k →
  subscribers_of (on k l s).2 k' = subscribers_of s k' ∧
  subscribers_of (off k l s).2 k' = subscribers_of s k'.
Proof.
  intros Hwf Hne. split.
  - destruct (decide (typeof l = TFunction)) as [Hl | Hl].
    + destruct l; try discriminate. rewrite on_spec. simpl.
      by apply on_state_subscribers_ne.
    + by rewrite on_not_callable.
  - destruct (off_cases k l s) as
      [[_ ->] | (f & -> & [[_ ->] | [(_ & _ & ->) | [(_ & _ & _ & ->) | (i & w & _ & Hi & _ & ->)]]])];
      simpl; try done.
    by apply off_state_subscribers_ne.
Qed.

Lemma X12_witness :
  wf ex_two ∧ VStr "a" ≠ VStr "b" ∧
  subscribers_of (on (VStr "b") (VFun 1) ex_two).2 (VStr "a") =
    [Wrapped 0 (VStr "a") 0; Wrapped 1 (VStr "a") 3] ∧
  subscribers_of (off (VStr "b") (VFun 0) ex_two).2 (VStr "a") =
    [Wrapped 0 (VStr "a") 0; Wrapped 1 (VStr "a") 3].
Proof.
  assert (Hwf : wf ex_two) by (do 2 apply after_on_wf; apply wf_new).
  assert (Hne : VStr "a" ≠ VStr "b") by discriminate.
  split; [exact Hwf |]. split; [exact Hne |].
  destruct (X12_other_keys_untouched (VStr "b") (VFun 1) ex_two (VStr "a") Hwf Hne)
    as [H1 _].
  destruct (X12_other_keys_untouched (VStr "b") (VFun 0) ex_two (VStr "a") Hwf Hne)
    as [_ H2].
  rewrite H1, H2. split; vm_compute; reflexivity.
Defined.

(** X13.  A listener subscribed to a valid key [k] is called by the
    publishes of [k], after the listeners that were registered before it,
    and by the publishes of no other key. *)
Theorem X13_subscribed_listener_is_published_to code k f s :
  wf s →
  valid_key k →
  let s1 := on_state k f s in
  let w := on_wrapper k f s in
  on k (VFun f) s = (Normal (Token k f (on_set k s) w), s1) ∧
  (∀ n p r s', emit code n k p s1 = Some (Normal r, s') →
     invoked_by s1 s' = subscribers_of s k ++ [w]) ∧
  (∀ k' n p o s', valid_key k' → k' ≠ k →
     emit code n k' p s1 = Some (o, s') → w ∉ invoked_by s1 s').
Proof.
  intros Hwf Hk s1 w. split; [apply on_spec |]. split.
  - intros n p r s' H.
    apply emit_invoked in H as (ws1 & ws2 & Hs & Hi & _ & Hn & _); [| done].
    rewrite (Hn eq_refl), app_nil_r in Hs.
    unfold s1 in Hs. rewrite on_state_subscribers in Hs by done.
    by rewrite Hi, <- Hs.
  - intros k' n p o s' Hk' Hne H.
    apply emit_invoked in H as (ws1 & ws2 & Hs & Hi & _); [| done].
    unfold s1 in Hs. rewrite on_state_subscribers_ne in Hs by done.
    destruct (wf_subscribers s k' Hwf) as (_ & Hb & _).
    rewrite Hs in Hb. apply Forall_app in Hb as [Hb _].
    rewrite Hi. intros Hin. rewrite Forall_forall in Hb.
    apply Hb in Hin. simpl in Hin. lia.
Qed.

Lemma X13_witness :
  wf ex_two ∧ valid_key (VStr "a") ∧
  ∃ s1 s2, on (VStr "a") (VFun 4) ex_two =
             (Normal (Token (VStr "a") 4 0 (Wrapped 2 (VStr "a") 4)), s1) ∧
           emit ex_code 1 (VStr "a") VNull s1 = Some (Normal RUndefined, s2) ∧
           w_listener <$> invoked_by s1 s2 = [0; 3; 4].
Proof.
  assert (Hwf : wf ex_two) by (do 2 apply after_on_wf; apply wf_new).
  split; [exact Hwf |]. split; [apply valid_key_str |].
  destruct (X13_subscribed_listener_is_published_to ex_code (VStr "a") 4 ex_two
              Hwf (valid_key_str "a")) as (Hon & He & _).
  destruct (with_final (emit ex_code 1 (VStr "a") VNull (on_state (VStr "a") 4 ex_two))
              (Normal RUndefined) ex_new (λ _, True)) as (s2 & He2 & _);
    [vm_compute; reflexivity | exact I |].
  exists (on_state (VStr "a") 4 ex_two), s2.
  split; [rewrite Hon; do 2 f_equal; vm_compute; reflexivity |].
  split; [exact He2 |].
  rewrite (He 1 VNull RUndefined s2 He2). vm_compute. reflexivity.
Defined.

(** ** The order of nested calls *)

Lemma direct_dispatch_trace d payload segs :
  Forall (λ seg : wrapped * list call_record,
            Forall (λ c, d < c_depth c) seg.2) segs →
  direct d (dispatch_trace d payload segs) =
    (λ w, CallRecord d w payload) <$> (fst <$> segs).
Proof.
  unfold dispatch_trace.
  induction 1 as [|[w tr] segs Htr _ IH]; [reflexivity |].
  simpl in Htr. apply direct_deeper in Htr.
  cbn [fmap list_fmap concat fst snd]. unfold direct in *.
  rewrite filter_app, filter_cons, decide_True by done.
  rewrite Htr. simpl. f_equal. exact IH.
Qed.

Section Level_order.

Variable code : nat → value → prog.
Variable run_body : prog → emitter → option (outcome value * emitter).

Hypothesis body_steps : ∀ p s o s',
  run_body p s = Some (o, s') → ∃ tr, steps s s' tr.

Lemma forEach_segments ws payload s o s' :
  forEach code run_body ws payload s = Some (o, s') →
  ∃ segs,
    depth s' = depth s ∧
    calls s' = calls s ++ dispatch_trace (depth s) payload segs ∧
    (fst <$> segs) `prefix_of` ws ∧
    (is_normal o = true → fst <$> segs = ws) ∧
    Forall (λ seg : wrapped * list call_record,
              Forall (λ c, depth s < c_depth c) seg.2) segs.
Proof.
  revert s. induction ws as [|w ws IH]; cbn [forEach]; intros s H.
  - simplify_eq. exists []. unfold dispatch_trace. simpl.
    rewrite app_nil_r. repeat split; done.
  - destruct (call_wrapped code run_body w payload s) as [[[res|e] s1]|] eqn:E;
      [| | done];
      apply (call_wrapped_steps code run_body body_steps) in E
        as (tr & (Hd & Hc & _) & Hdeep).
    + apply IH in H as (segs & Hd' & Hc' & [rest Hp] & Hn & Hf).
      exists ((w, tr) :: segs). rewrite Hd in *.
      split; [done |]. split.
      { rewrite Hc', Hc. unfold dispatch_trace. simpl.
        by rewrite <- !app_assoc. }
      split.
      { exists rest. rewrite fmap_cons, <- app_comm_cons. simpl. f_equal. exact Hp. }
      split.
      { intros Ho. rewrite fmap_cons. simpl. f_equal. exact (Hn Ho). }
      by constructor.
    + simplify_eq. exists [(w, tr)].
      split; [done |]. split.
      { rewrite Hc. unfold dispatch_trace. simpl. by rewrite app_nil_r. }
      split; [by exists ws |]. split; [done |].
      by repeat constructor.
Qed.

End Level_order.

(** X14.  A dispatch is synchronous and depth-first: the record of the
    listener calls made during [emit(k, payload)] is, for each listener
    that [emit] called in turn, its own call followed by all the calls it
    caused (by publishing in its body, to any depth), and only then the
    call of the next listener of the snapshot. *)
Theorem X14_dispatch_depth_first code n k payload s o s' :
  valid_key k →
  emit code n k payload s = Some (o, s') →
  ∃ segs,
    new_calls s s' = dispatch_trace (depth s) payload segs ∧
    fst <$> segs = invoked_by s s' ∧
    (fst <$> segs) `prefix_of` subscribers_of s k ∧
    Forall (λ seg : wrapped * list call_record,
              Forall (λ c, depth s < c_depth c) seg.2) segs.
Proof.
  intros Hk H. unfold emit in H. rewrite emit_level_valid in H by done.
  apply forEach_segments in H as (segs & Hd & Hc & Hp & _ & Hf);
    [| apply run_steps].
  simpl in Hc, Hp, Hf.
  assert (Hn : new_calls s s' = dispatch_trace (depth s) payload segs).
  { unfold new_calls. rewrite Hc. by rewrite drop_app_length. }
  exists segs. split; [exact Hn |]. split; [| done].
  unfold invoked_by. rewrite Hn, direct_dispatch_trace by done.
  rewrite <- list_fmap_compose. clear.
  induction segs as [|[w tr] segs IH]; [done |].
  rewrite !fmap_cons. simpl. by f_equal.
Qed.

(** Listener 5, registered under ["b"], publishes ["a"], where listener 0
    is: that call of listener 0 comes before the next listener of ["b"]. *)
Lemma X14_witness :
  valid_key (VStr "b") ∧
  ∃ s' segs,
    emit ex_relay_code 2 (VStr "b") (VNum 1) ex_relay = Some (Normal RUndefined, s') ∧
    new_calls ex_relay s' =
      [CallRecord 0 (Wrapped 1 (VStr "b") 5) (VNum 1);
       CallRecord 1 (Wrapped 0 (VStr "a") 0) VNull;
       CallRecord 0 (Wrapped 2 (VStr "b") 0) (VNum 1)] ∧
    new_calls ex_relay s' = dispatch_trace 0 (VNum 1) segs ∧
    fst <$> segs = invoked_by ex_relay s'.
Proof.
  split; [apply valid_key_str |].
  assert (∃ s', emit ex_relay_code 2 (VStr "b") (VNum 1) ex_relay =
                  Some (Normal RUndefined, s') ∧
                new_calls ex_relay s' =
                  [CallRecord 0 (Wrapped 1 (VStr "b") 5) (VNum 1);
                   CallRecord 1 (Wrapped 0 (VStr "a") 0) VNull;
                   CallRecord 0 (Wrapped 2 (VStr "b") 0) (VNum 1)])
    as (s' & He & Hc).
  { apply with_final with (d := ex_new); vm_compute; reflexivity. }
  destruct (X14_dispatch_depth_first ex_relay_code 2 (VStr "b") (VNum 1)
              ex_relay _ s' (valid_key_str "b") He) as (segs & Hn & Hi & _).
  exists s', segs. split; [exact He |]. split; [exact Hc |].
  split; [exact Hn | exact Hi].
Defined.

(** ** Properties kept by every client

    A property of the maps and sets that [on], [off] and the [off] of a
    token keep is kept by every program, whatever the listeners do. *)

Section Invariant.

Variable P : emitter → Prop.

Hypothesis P_ext : ∀ s s',
  eventsMap s' = eventsMap s → listenersMap s' = listenersMap s →
  sets s' = sets s → next_set s' = next_set s →
  next_wrapper s' = next_wrapper s → P s → P s'.
Hypothesis P_on : ∀ k l s, P s → P (on k l s).2.
Hypothesis P_off : ∀ k l s, P s → P (off k l s).2.
Hypothesis P_token_off : ∀ t s, P s → P (token_off t s).2.

Variable code : nat → value → prog.

Section Invariant_level.

Variable run_body : prog → emitter → option (outcome value * emitter).

Hypothesis body_inv : ∀ p s o s', run_body p s = Some (o, s') → P s → P s'.

Lemma call_wrapped_inv w payload s o s' :
  call_wrapped code run_body w payload s = Some (o, s') → P s → P s'.
Proof.
  unfold call_wrapped. intros H HP.
  destruct (run_body _ _) as [[[res|e] s2]|] eqn:E; simplify_eq; simpl.
  - eapply (P_ext s2); try done.
    eapply body_inv; [exact E |]. by eapply (P_ext s).
  - eapply (P_ext s2); try done.
    eapply body_inv; [exact E |]. by eapply (P_ext s).
Qed.

Lemma forEach_inv ws payload s o s' :
  forEach code run_body ws payload s = Some (o, s') → P s → P s'.
Proof.
  revert s. induction ws as [|w ws IH]; simpl; intros s H HP.
  - by simplify_eq.
  - destruct (call_wrapped _ _ _ _ _) as [[[res|e] s1]|] eqn:E; [| | done].
    + eapply IH; [exact H |]. eauto using call_wrapped_inv.
    + simplify_eq. eauto using call_wrapped_inv.
Qed.

Lemma exec_level_inv c s o s' :
  exec_level code run_body c s = Some (o, s') → P s → P s'.
Proof.
  destruct c; simpl; intros H HP;
    try (apply lift_inv in H; subst s').
  - by apply P_on.
  - by apply P_token_off.
  - unfold emit_level in H.
    destruct (assertEventName eventName s) as [[[]|e] s1] eqn:E;
      apply assertEventName_state in E; subst s1.
    + eapply forEach_inv; [exact H |]. by eapply (P_ext s).
    + by simplify_eq.
  - by apply P_off.
  - by rewrite (hasListener_state _ _ _ _ _ (surjective_pairing _)).
Qed.

Lemma run_level_inv p s o s' :
  run_level code run_body p s = Some (o, s') → P s → P s'.
Proof.
  revert s. induction p as [v | e | c k IH]; simpl; intros s H HP.
  - by simplify_eq.
  - by simplify_eq.
  - destruct (exec_level _ _ _ _) as [[r s1]|] eqn:E; [| done].
    eapply IH; [exact H |]. eauto using exec_level_inv.
Qed.

End Invariant_level.

Lemma run_inv n p s o s' :
  run code n p s = Some (o, s') → P s → P s'.
Proof.
  revert p s o s'. induction n as [|n IH]; simpl; intros p s o s'; [done |].
  apply run_level_inv. exact IH.
Qed.

End Invariant.

(** ** The wrappers of a state *)

Lemma elem_of_Set_add x w l : x ∈ Set_add w l → x = w ∨ x ∈ l.
Proof.
  unfold Set_add. destruct (Set_has w l); [by right |].
  rewrite elem_of_app, list_elem_of_singleton. tauto.
Qed.

Lemma elem_of_Set_delete x w l : x ∈ Set_delete w l → x ∈ l.
Proof. unfold Set_delete. rewrite list_elem_of_filter. tauto. Qed.

Lemma in_state_on s k f w :
  in_state (on_state k f s) w → w = on_wrapper k f s ∨ in_state s w.
Proof.
  intros [(i & l & Hl & Hw) | (g & Hg)].
  - simpl in Hl. destruct (decide (i = on_set k s)) as [-> | Hne].
    + rewrite lookup_alter_eq in Hl.
      destruct (eventsMap s !! k) as [j|] eqn:Hj.
      * destruct (sets s !! on_set k s) as [l0|] eqn:Hl0; simplify_eq/=.
        apply elem_of_Set_add in Hw as [-> | Hw]; [by left |].
        right. left. eauto.
      * rewrite lookup_insert_eq in Hl. simplify_eq/=.
        apply elem_of_Set_add in Hw as [-> | Hw]; [by left |].
        by apply elem_of_nil in Hw.
    + rewrite lookup_alter_ne in Hl by done.
      destruct (eventsMap s !! k) as [j|] eqn:Hj.
      * right. left. eauto.
      * rewrite lookup_insert_ne in Hl by done. right. left. eauto.
  - simpl in Hg. destruct (decide (f = g)) as [-> | Hne].
    + rewrite lookup_insert_eq in Hg. left. congruence.
    + rewrite lookup_insert_ne in Hg by done. right. right. eauto.
Qed.

Lemma in_state_shrink s s' w0 i g w :
  sets s' = alter (Set_delete w0) i (sets s) →
  listenersMap s' = delete g (listenersMap s) →
  in_state s' w → in_state s w.
Proof.
  intros Es El [(j & l & Hl & Hw) | (h & Hh)].
  - left. rewrite Es in Hl. destruct (decide (i = j)) as [<- | Hne].
    + rewrite lookup_alter_eq in Hl.
      destruct (sets s !! i) as [l0|] eqn:Hl0; simplify_eq/=.
      eauto using elem_of_Set_delete.
    + rewrite lookup_alter_ne in Hl by done. eauto.
  - right. rewrite El in Hh. apply lookup_delete_Some in Hh as [_ Hh]. eauto.
Qed.

Lemma wrappers_ok_new options : wrappers_ok (new_emitter options).
Proof.
  assert (H : ∀ w, ¬ in_state (new_emitter options) w).
  { intros w [(i & l & Hl & _) | (f & Hf)]; simpl in *;
      by rewrite lookup_empty in *. }
  split.
  - intros w Hw. by apply H in Hw.
  - intros w w' Hw. by apply H in Hw.
  - intros f w. simpl. by rewrite lookup_empty.
Qed.

Lemma wrappers_ok_ext s s' :
  eventsMap s' = eventsMap s → listenersMap s' = listenersMap s →
  sets s' = sets s → next_set s' = next_set s →
  next_wrapper s' = next_wrapper s → wrappers_ok s → wrappers_ok s'.
Proof.
  intros _ El Es _ En [H1 H2 H3].
  assert (Hin : ∀ w, in_state s' w → in_state s w).
  { intros w. unfold in_state. by rewrite El, Es. }
  split.
  - intros w Hw. rewrite En. auto.
  - intros w w' Hw Hw'. auto.
  - intros f w. rewrite El. auto.
Qed.

Lemma wrappers_ok_on_state s k f : wrappers_ok s → wrappers_ok (on_state k f s).
Proof.
  intros [H1 H2 H3]. split.
  - intros w Hw. simpl. apply in_state_on in Hw as [-> | Hw].
    + simpl. lia.
    + apply H1 in Hw. lia.
  - intros w w' Hw Hw' Hid.
    apply in_state_on in Hw as [-> | Hw]; apply in_state_on in Hw' as [-> | Hw'].
    + done.
    + apply H1 in Hw'. simpl in Hid. lia.
    + apply H1 in Hw. simpl in Hid. lia.
    + auto.
  - intros g w. simpl. destruct (decide (f = g)) as [-> | Hne].
    + rewrite lookup_insert_eq. by intros [= <-].
    + rewrite lookup_insert_ne by done. auto.
Qed.

Lemma wrappers_ok_shrink s s' w0 i g :
  sets s' = alter (Set_delete w0) i (sets s) →
  listenersMap s' = delete g (listenersMap s) →
  next_wrapper s' = next_wrapper s →
  wrappers_ok s → wrappers_ok s'.
Proof.
  intros Es El En [H1 H2 H3].
  assert (Hin : ∀ w, in_state s' w → in_state s w)
    by eauto using in_state_shrink.
  split.
  - intros w Hw. rewrite En. auto.
  - intros w w' Hw Hw'. auto.
  - intros f w. rewrite El. intros Hf.
    apply lookup_delete_Some in Hf as [_ Hf]. auto.
Qed.

Lemma wrappers_ok_on k l s : wrappers_ok s → wrappers_ok (on k l s).2.
Proof.
  intros Hok. destruct (decide (typeof l = TFunction)) as [Hl | Hl].
  - destruct l; try discriminate. rewrite on_spec. by apply wrappers_ok_on_state.
  - by rewrite on_not_callable.
Qed.

Lemma wrappers_ok_off k l s : wrappers_ok s → wrappers_ok (off k l s).2.
Proof.
  intros Hok.
  destruct (off_cases k l s) as
    [[_ ->] | (f & -> & [[_ ->] | [(_ & _ & ->) | [(_ & _ & _ & ->) | (i & w & _ & _ & _ & ->)]]])];
    simpl; try done.
  by eapply (wrappers_ok_shrink s _ w i f).
Qed.

Lemma wrappers_ok_token_off t s : wrappers_ok s → wrappers_ok (token_off t s).2.
Proof.
  intros Hok. rewrite token_off_spec. repeat case_match; simpl; try done.
  by eapply (wrappers_ok_shrink s _ (t_newListener t) (t_subscribers t) (t_listener t)).
Qed.

Lemma reachable_wrappers_ok code s : reachable code s → wrappers_ok s.
Proof.
  intros (options & n & p & o & H).
  eapply (run_inv wrappers_ok); [| | | | exact H | apply wrappers_ok_new].
  - apply wrappers_ok_ext.
  - apply wrappers_ok_on.
  - apply wrappers_ok_off.
  - apply wrappers_ok_token_off.
Qed.

(** X15.  In every state that a client can reach, a successful [off(k, f)]
    removes no registration of another listener: every wrapper of a
    listener other than [f], under any key, is still registered
    afterwards. *)
Theorem X15_off_spares_other_listeners code k f s s' :
  reachable code s →
  off k (VFun f) s = (Normal true, s') →
  ∀ k' w', w' ∈ subscribers_of s k' → w_listener w' ≠ f →
           w' ∈ subscribers_of s' k'.
Proof.
  intros Hr Hoff k' w' Hin Hf.
  pose proof (reachable_wf _ _ Hr) as Hwf.
  pose proof (reachable_wrappers_ok _ _ Hr) as Hok.
  destruct (off_cases k (VFun f) s) as
    [[_ E] | (g & [= <-] & [[_ E] | [(_ & _ & E) | [(_ & _ & _ & E) | (i & w & _ & Hi & Hw & E)]]])];
    rewrite E in Hoff; simplify_eq.
  destruct (decide (k' = k)) as [-> | Hne].
  - rewrite off_state_subscribers by done.
    unfold Set_delete. apply list_elem_of_filter. split; [| done].
    intros Hid. apply Hf.
    assert (w' = w) as ->; [| by apply (wo_listener s Hok)].
    apply (wo_unique s Hok); [| right; eauto | done].
    left. unfold subscribers_of in Hin. rewrite Hi in Hin.
    unfold set_contents in Hin.
    destruct (sets s !! i) as [l|] eqn:Hl; [eauto |].
    by apply elem_of_nil in Hin.
  - by rewrite off_state_subscribers_ne.
Qed.

Lemma X15_witness :
  ∃ s s', reachable ex_code s ∧
          off (VStr "b") (VFun 3) s = (Normal true, s') ∧
          Wrapped 0 (VStr "a") 0 ∈ subscribers_of s' (VStr "a").
Proof.
  destruct (with_final
              (run ex_code 1
                 (Do (On (VStr "a") (VFun 0)) (λ _,
                  Do (On (VStr "b") (VFun 3)) (λ _, Return VUndefined)))
                 ex_new)
              (Normal VUndefined) ex_new
              (λ s, (off (VStr "b") (VFun 3) s).1 = Normal true ∧
                    Wrapped 0 (VStr "a") 0 ∈ subscribers_of s (VStr "a")))
    as (s & Hrun & Ho & Hin).
  { vm_compute. reflexivity. }
  { split; [vm_compute; reflexivity |]. vm_compute. apply list_elem_of_here. }
  apply pair_after in Ho.
  assert (Hr : reachable ex_code s) by (by eexists None, 1, _, _).
  exists s, (after (off (VStr "b") (VFun 3)) s).
  split; [exact Hr |]. split; [exact Ho |].
  apply (X15_off_spares_other_listeners ex_code (VStr "b") 3 s _ Hr Ho
           (VStr "a") (Wrapped 0 (VStr "a") 0) Hin).
  simpl. lia.
Defined.
